(** * voice-deck: bilingual text segmentation and queued playback

    A shallow embedding of the revisions of the voice-deck script:

    - [Base]      : [src/main.js]
    - [Sentence]  : the sentence-splitting [parseText] shared by both
                    scripts of [src/unnamed/part_000]
    - [Highlight] : the second script of [src/unnamed/part_000]
                    (highlighting, no translation)
    - [Translate] : the first script of [src/unnamed/part_000]
                    (highlighting and translation)

    JavaScript strings are sequences of UTF-16 code units; they are
    modelled as [list N]. *)

From Stdlib Require Import NArith ZArith List Bool String Ascii Lia.
From stdpp Require Import base decidable option list countable gmap.
Import ListNotations.

Local Open Scope N_scope.

(** ** Strings *)

Abbreviation jsstring := (list N).

(** An ASCII literal as a JavaScript string. *)
Definition js (s : string) : jsstring :=
  List.map N_of_ascii (list_ascii_of_string s).

Definition in_range (lo hi u : N) : bool := (lo <=? u) && (u <=? hi).

(** The class [\s] of a regular expression without the [u] flag, which
    is also the set that [String.prototype.trim] strips: WhiteSpace and
    LineTerminator of ECMAScript. *)
Definition is_space (u : N) : bool :=
  in_range 0x09 0x0D u        (* \t \n \v \f \r *)
  || (u =? 0x20) || (u =? 0xA0) || (u =? 0x1680)
  || in_range 0x2000 0x200A u
  || (u =? 0x2028) || (u =? 0x2029) || (u =? 0x202F)
  || (u =? 0x205F) || (u =? 0x3000) || (u =? 0xFEFF).

Fixpoint drop_space (s : jsstring) : jsstring :=
  match s with
  | [] => []
  | u :: rest => if is_space u then drop_space rest else s
  end.

(** [s.trim()] *)
Definition trim (s : jsstring) : jsstring :=
  rev (drop_space (rev (drop_space s))).

(** [s.trim().length > 0] *)
Definition speakable (s : jsstring) : bool :=
  (0 <? length (trim s))%nat.

(** [regex.test(s)] for a regular expression that is one character
    class: some code unit of [s] belongs to the class. *)
Definition test (class : N -> bool) (s : jsstring) : bool :=
  existsb class s.

(** The class of [koreanRegex]: U+AC00..U+D7AF (Hangul syllables),
    U+1100..U+11FF (Jamo), U+3130..U+318F (compatibility Jamo). *)
Definition koreanRegex (u : N) : bool :=
  in_range 0xAC00 0xD7AF u || in_range 0x1100 0x11FF u
  || in_range 0x3130 0x318F u.

(** The punctuation listed in the neutral class, in the order of the
    source: full stop, comma, exclamation and question mark, at, hash,
    dollar, percent, caret, ampersand, asterisk, parentheses, underscore,
    hyphen, plus, equals, colon, semicolon, double and single quote,
    angle brackets, square brackets, braces. *)
Definition neutral_punctuation : list N :=
  [ 46; 44; 33; 63; 64; 35; 36; 37; 94; 38; 42; 40; 41; 95; 45; 43; 61;
    58; 59; 34; 39; 60; 62; 91; 93; 123; 125 ].

(** The class of the neutral test: digits, [\s] and the punctuation. *)
Definition neutralRegex (u : N) : bool :=
  in_range 48 57 u || is_space u
  || existsb (N.eqb u) neutral_punctuation.

(** The class of [sentenceEndRegex]: full stop, exclamation mark,
    question mark, line feed. *)
Definition sentenceEndRegex (u : N) : bool :=
  (u =? 46) || (u =? 33) || (u =? 63) || (u =? 10).

(** ** Segments *)

(** The strings the scripts use as segment and character types. *)
Inductive tag : Set := unknown | en | ko | neutral.

Global Instance tag_eq_dec : EqDecision tag.
Proof. solve_decision. Defined.

Record Segment : Set := mkSegment { text : jsstring; type : tag }.

Global Instance Segment_eq_dec : EqDecision Segment.
Proof. solve_decision. Defined.

(** [charType] as computed at the top of both loop bodies. *)
Definition charType (char : jsstring) : tag :=
  if test koreanRegex char then ko
  else if test neutralRegex char then neutral
  else en.

(** The object [{ text: '', type: 'unknown' }]. *)
Definition fresh : Segment := {| text := []; type := unknown |}.

(** [seg.text += char] *)
Definition append (seg : Segment) (char : jsstring) : Segment :=
  {| text := text seg ++ char; type := type seg |}.

(** [if (cond) segments.push(seg)] *)
Definition push_if (cond : bool) (segments : list Segment) (seg : Segment)
  : list Segment :=
  if cond then segments ++ [seg] else segments.

(** ** The page and the speech engine *)

(** A [SpeechSynthesisVoice]. *)
Record Voice : Set := { name : jsstring; lang : jsstring; default : bool }.

(** The closures the scripts assign to [onstart], [onend] and [onerror],
    by their bodies; [index] is the variable each closure captures.
    - [unset]         : the property is never assigned
    - [stop_speaking] : [setSpeakingState(false)]
    - [highlight]     : [highlightSegment(index)]
    - [finish]        : [unhighlightSegment(index)], then
                        [setSpeakingState(false)] if
                        [index === currentSegments.length - 1]
    - [fail_last]     : [setSpeakingState(false)] if
                        [index === currentSegments.length - 1] *)
Inductive Handler : Set :=
| unset
| stop_speaking
| highlight (index : nat)
| finish (index : nat)
| fail_last (index : nat).

(** A [SpeechSynthesisUtterance]: [utext] is its [text]; [voice] stays
    [None] (null) unless assigned; [rate] and [pitch] hold the strings
    assigned to them. *)
Record Utterance : Set := {
  utext : jsstring;
  voice : option Voice;
  rate : jsstring;
  pitch : jsstring;
  onstart : Handler;
  onend : Handler;
  onerror : Handler
}.

(** [window.speechSynthesis]: the utterances submitted and neither
    finished nor cancelled, oldest first, and the paused flag.  The
    engine is a collaborator of the scripts; of its behaviour the model
    keeps that [speak] enqueues, [cancel] empties the queue and leaves
    the paused flag alone, [pause] and [resume] set and clear the flag,
    and [speaking] holds while the queue holds an utterance. *)
Record Synth : Set := { queue : list Utterance; paused : bool }.

Definition speaking (s : Synth) : bool :=
  match queue s with [] => false | _ :: _ => true end.

(** The form fields [speak] reads. *)
Record Inputs : Set := {
  textInput_value : jsstring;
  voiceSelectEn_value : jsstring;
  voiceSelectKo_value : jsstring;
  rateInput_value : jsstring;
  pitchInput_value : jsstring;
  translateToggle_checked : bool
}.

(** What [setSpeakingState] writes: the [hidden] class of the status
    indicator and the [disabled] property of the three buttons. *)
Record Controls : Set := {
  statusIndicator_hidden : bool;
  pauseBtn_disabled : bool;
  stopBtn_disabled : bool;
  playBtn_disabled : bool
}.

(** The text area and the display area of [src/unnamed/part_000]: their
    [hidden] class, and the spans of the display area, each with its
    text and whether it carries the [highlight] class. *)
Record Display : Set := {
  textInput_hidden : bool;
  displayArea_hidden : bool;
  displayArea_spans : list (jsstring * bool)
}.

(** [pauseBtn.innerHTML]: the markup of the page as loaded and of the
    handlers says Pause, the other one Resume. *)
Inductive PauseMarkup : Set := pause_markup | resume_markup.

(** [statusIndicator.innerHTML]: as loaded, Translating, Speaking. *)
Inductive StatusMarkup : Set := loaded_markup | translating_markup | speaking_markup.

Record State : Type := {
  inputs : Inputs;
  controls : Controls;
  pauseBtn_innerHTML : PauseMarkup;
  statusIndicator_innerHTML : StatusMarkup;
  display : Display;
  voiceMap : gmap jsstring Voice;
  currentSegments : list Segment;
  isTranslating : bool;
  synth : Synth
}.

Definition with_controls (c : Controls) (st : State) : State :=
  {| inputs := inputs st; controls := c;
     pauseBtn_innerHTML := pauseBtn_innerHTML st;
     statusIndicator_innerHTML := statusIndicator_innerHTML st;
     display := display st; voiceMap := voiceMap st;
     currentSegments := currentSegments st;
     isTranslating := isTranslating st; synth := synth st |}.

Definition with_pauseBtn_innerHTML (m : PauseMarkup) (st : State) : State :=
  {| inputs := inputs st; controls := controls st;
     pauseBtn_innerHTML := m;
     statusIndicator_innerHTML := statusIndicator_innerHTML st;
     display := display st; voiceMap := voiceMap st;
     currentSegments := currentSegments st;
     isTranslating := isTranslating st; synth := synth st |}.

Definition with_statusIndicator_innerHTML (m : StatusMarkup) (st : State)
  : State :=
  {| inputs := inputs st; controls := controls st;
     pauseBtn_innerHTML := pauseBtn_innerHTML st;
     statusIndicator_innerHTML := m;
     display := display st; voiceMap := voiceMap st;
     currentSegments := currentSegments st;
     isTranslating := isTranslating st; synth := synth st |}.

Definition with_display (d : Display) (st : State) : State :=
  {| inputs := inputs st; controls := controls st;
     pauseBtn_innerHTML := pauseBtn_innerHTML st;
     statusIndicator_innerHTML := statusIndicator_innerHTML st;
     display := d; voiceMap := voiceMap st;
     currentSegments := currentSegments st;
     isTranslating := isTranslating st; synth := synth st |}.

Definition with_currentSegments (l : list Segment) (st : State) : State :=
  {| inputs := inputs st; controls := controls st;
     pauseBtn_innerHTML := pauseBtn_innerHTML st;
     statusIndicator_innerHTML := statusIndicator_innerHTML st;
     display := display st; voiceMap := voiceMap st;
     currentSegments := l;
     isTranslating := isTranslating st; synth := synth st |}.

Definition with_isTranslating (b : bool) (st : State) : State :=
  {| inputs := inputs st; controls := controls st;
     pauseBtn_innerHTML := pauseBtn_innerHTML st;
     statusIndicator_innerHTML := statusIndicator_innerHTML st;
     display := display st; voiceMap := voiceMap st;
     currentSegments := currentSegments st;
     isTranslating := b; synth := synth st |}.

Definition with_synth (s : Synth) (st : State) : State :=
  {| inputs := inputs st; controls := controls st;
     pauseBtn_innerHTML := pauseBtn_innerHTML st;
     statusIndicator_innerHTML := statusIndicator_innerHTML st;
     display := display st; voiceMap := voiceMap st;
     currentSegments := currentSegments st;
     isTranslating := isTranslating st; synth := s |}.

(** [statusIndicator.classList.add('hidden')] and [.remove('hidden')] *)
Definition with_statusIndicator_hidden (b : bool) (st : State) : State :=
  with_controls
    {| statusIndicator_hidden := b;
       pauseBtn_disabled := pauseBtn_disabled (controls st);
       stopBtn_disabled := stopBtn_disabled (controls st);
       playBtn_disabled := playBtn_disabled (controls st) |} st.

(** [synth.speak(utterance)] *)
Definition synth_speak (u : Utterance) (st : State) : State :=
  with_synth {| queue := queue (synth st) ++ [u];
                paused := paused (synth st) |} st.

(** [synth.cancel()] *)
Definition synth_cancel (st : State) : State :=
  with_synth {| queue := []; paused := paused (synth st) |} st.

(** [synth.pause()] *)
Definition synth_pause (st : State) : State :=
  with_synth {| queue := queue (synth st); paused := true |} st.

(** [synth.resume()] *)
Definition synth_resume (st : State) : State :=
  with_synth {| queue := queue (synth st); paused := false |} st.

(** [list.forEach((x, index) => ...)], the state threaded through the
    calls. *)
Fixpoint forEach_from {A : Type} (index : nat)
  (f : A -> nat -> State -> State) (l : list A) (st : State) : State :=
  match l with
  | [] => st
  | x :: l' => forEach_from (S index) f l' (f x index st)
  end.

Definition forEach {A : Type} (f : A -> nat -> State -> State)
  (l : list A) (st : State) : State :=
  forEach_from 0 f l st.

(** [index === length - 1], on integers: the right-hand side is -1 for
    an empty list. *)
Definition is_last (index length : nat) : bool :=
  bool_decide (Z.of_nat index = (Z.of_nat length - 1)%Z).

(** The voice assignment common to the three [speak] functions: the
    result of [voiceMap.get] on the name selected for the language of
    the segment; an object when the name is registered, which
    [if (v)] accepts, and nothing otherwise. *)
Definition assigned_voice (st : State) (segment : Segment) : option Voice :=
  if decide (type segment = ko) then
    voiceMap st !! voiceSelectKo_value (inputs st)
  else
    voiceMap st !! voiceSelectEn_value (inputs st).

(** [highlightSegment(index)] *)
Definition highlightSegment (index : nat) (st : State) : State :=
  let cleared :=
    List.map (fun s : jsstring * bool => (fst s, false))
      (displayArea_spans (display st)) in
  with_display
    {| textInput_hidden := textInput_hidden (display st);
       displayArea_hidden := displayArea_hidden (display st);
       displayArea_spans :=
         alter (fun s : jsstring * bool => (fst s, true)) index cleared |} st.

(** [unhighlightSegment(index)] *)
Definition unhighlightSegment (index : nat) (st : State) : State :=
  with_display
    {| textInput_hidden := textInput_hidden (display st);
       displayArea_hidden := displayArea_hidden (display st);
       displayArea_spans :=
         alter (fun s : jsstring * bool => (fst s, false)) index
           (displayArea_spans (display st)) |} st.

(** [prepareDisplayArea(segments)] *)
Definition prepareDisplayArea (segments : list Segment) (st : State) : State :=
  with_display
    {| textInput_hidden := true;
       displayArea_hidden := false;
       displayArea_spans := List.map (fun seg => (text seg, false)) segments |}
    st.

(** Running a closure, given the [setSpeakingState] of its script. *)
Definition run (setSpeakingState : bool -> State -> State) (h : Handler)
  (st : State) : State :=
  match h with
  | unset => st
  | stop_speaking => setSpeakingState false st
  | highlight index => highlightSegment index st
  | finish index =>
      let st := unhighlightSegment index st in
      if is_last index (length (currentSegments st))
      then setSpeakingState false st else st
  | fail_last index =>
      if is_last index (length (currentSegments st))
      then setSpeakingState false st else st
  end.

(** The events the engine raises on an utterance. *)
Inductive Callback : Set := start_event | end_event | error_event.

Definition handler_of (cb : Callback) (u : Utterance) : Handler :=
  match cb with
  | start_event => onstart u
  | end_event => onend u
  | error_event => onerror u
  end.

(** The aggregate state of the controller, read off what
    [setSpeakingState] last wrote and the paused flag of the engine. *)
Inductive Status : Set := Idle | Speaking | Paused.

Definition status (st : State) : Status :=
  if playBtn_disabled (controls st) then
    if paused (synth st) then Paused else Speaking
  else Idle.

(** [src/main.js] *)
Module Base.

Definition is_high_surrogate (u : N) : bool := in_range 0xD800 0xDBFF u.
Definition is_low_surrogate (u : N) : bool := in_range 0xDC00 0xDFFF u.

(** [for (let char of text)]: the string iterator yields one string
    per code point, a surrogate pair staying together. *)
Fixpoint string_iterator (s : jsstring) : list jsstring :=
  match s with
  | [] => []
  | u :: rest =>
      match rest with
      | v :: rest' =>
          if is_high_surrogate u && is_low_surrogate v
          then [u; v] :: string_iterator rest'
          else [u] :: string_iterator rest
      | [] => [[u]]
      end
  end.

(** One iteration of the loop of [parseText], on the pair
    [(segments, currentSegment)]. *)
Definition scan (acc : list Segment * Segment) (char : jsstring)
  : list Segment * Segment :=
  let '(segments, currentSegment) := acc in
  let charType := charType char in
  if decide (type currentSegment = unknown) then
    (segments,
     {| text := text currentSegment ++ char;
        type := if decide (charType = neutral) then en else charType |})
  else if decide (charType = neutral) then
    (segments, append currentSegment char)
  else if decide (charType = type currentSegment) then
    (segments, append currentSegment char)
  else
    (push_if (speakable (text currentSegment)) segments currentSegment,
     {| text := char; type := charType |}).

Definition parseText (text0 : jsstring) : list Segment :=
  let '(segments, currentSegment) :=
    fold_left scan (string_iterator text0) ([], fresh) in
  push_if (speakable (text currentSegment)) segments currentSegment.

Definition setSpeakingState (isSpeaking : bool) (st : State) : State :=
  if isSpeaking then
    with_controls
      {| statusIndicator_hidden := false;
         pauseBtn_disabled := false;
         stopBtn_disabled := false;
         playBtn_disabled := true |} st
  else
    with_controls
      {| statusIndicator_hidden := true;
         pauseBtn_disabled := true;
         stopBtn_disabled := true;
         playBtn_disabled := false |} st.

(** The utterance built and configured by one call of the callback of
    [segments.forEach]. *)
Definition utterance (segments : list Segment) (st : State)
  (segment : Segment) (index : nat) : Utterance :=
  let last := is_last index (length segments) in
  {| utext := text segment;
     voice := assigned_voice st segment;
     rate := rateInput_value (inputs st);
     pitch := pitchInput_value (inputs st);
     onstart := unset;
     onend := if last then stop_speaking else unset;
     onerror := if last then stop_speaking else unset |}.

Definition speak (st : State) : State :=
  if speaking (synth st) then st
  else
    let text0 := textInput_value (inputs st) in
    if decide (text0 <> []) then
      let st := setSpeakingState true st in
      let segments := parseText text0 in
      forEach
        (fun segment index st =>
           synth_speak (utterance segments st segment index) st)
        segments st
    else st.

(** A callback of the engine on an utterance this script submitted. *)
Definition deliver (cb : Callback) (u : Utterance) (st : State) : State :=
  run setSpeakingState (handler_of cb u) st.

(** The click listener of [playBtn]. *)
Definition playBtn_click (st : State) : State :=
  if paused (synth st) then setSpeakingState true (synth_resume st)
  else speak st.

(** The click listener of [pauseBtn]. *)
Definition pauseBtn_click (st : State) : State :=
  if speaking (synth st) && negb (paused (synth st)) then
    with_pauseBtn_innerHTML resume_markup
      (with_statusIndicator_hidden true (synth_pause st))
  else if paused (synth st) then
    with_pauseBtn_innerHTML pause_markup
      (with_statusIndicator_hidden false (synth_resume st))
  else st.

(** The click listener of [stopBtn]. *)
Definition stopBtn_click (st : State) : State :=
  if speaking (synth st) then
    with_pauseBtn_innerHTML pause_markup
      (setSpeakingState false (synth_cancel st))
  else st.

End Base.

(** The [parseText] of both scripts of [src/unnamed/part_000]. *)
Module Sentence.

(** [for (let i = 0; i < text.length; i++) { const char = text[i]; ...]:
    one string per code unit. *)
Definition units (s : jsstring) : list jsstring :=
  List.map (fun u => [u]) s.

(** One iteration of the loop of [parseText]. *)
Definition scan (acc : list Segment * Segment) (char : jsstring)
  : list Segment * Segment :=
  let '(segments, currentSegment) := acc in
  let charType := charType char in
  let currentSegment :=
    if decide (type currentSegment = unknown) then
      {| text := text currentSegment;
         type := if decide (charType = neutral) then en else charType |}
    else currentSegment in
  let typeChanged :=
    bool_decide (charType <> neutral)
    && bool_decide (charType <> type currentSegment) in
  if typeChanged then
    (push_if (0 <? length (text currentSegment))%nat segments currentSegment,
     {| text := char; type := charType |})
  else
    let currentSegment := append currentSegment char in
    if test sentenceEndRegex char then
      (segments ++ [currentSegment], fresh)
    else
      (segments, currentSegment).

(** The list [segments] before the final [filter]. *)
Definition raw_segments (text0 : jsstring) : list Segment :=
  let '(segments, currentSegment) :=
    fold_left scan (units text0) ([], fresh) in
  push_if (0 <? length (text currentSegment))%nat segments currentSegment.

Definition parseText (text0 : jsstring) : list Segment :=
  List.filter (fun s => speakable (text s)) (raw_segments text0).

End Sentence.

(** The second script of [src/unnamed/part_000]. *)
Module Highlight.

Definition parseText := Sentence.parseText.

Definition setSpeakingState (isSpeaking : bool) (st : State) : State :=
  if isSpeaking then
    with_controls
      {| statusIndicator_hidden := false;
         pauseBtn_disabled := false;
         stopBtn_disabled := false;
         playBtn_disabled := true |} st
  else
    let st :=
      with_controls
        {| statusIndicator_hidden := true;
           pauseBtn_disabled := true;
           stopBtn_disabled := true;
           playBtn_disabled := false |} st in
    let st :=
      with_display
        {| textInput_hidden := false;
           displayArea_hidden := true;
           displayArea_spans := displayArea_spans (display st) |} st in
    if speaking (synth st) then synth_cancel st else st.

Definition utterance (st : State) (segment : Segment) (index : nat)
  : Utterance :=
  {| utext := text segment;
     voice := assigned_voice st segment;
     rate := rateInput_value (inputs st);
     pitch := pitchInput_value (inputs st);
     onstart := highlight index;
     onend := finish index;
     onerror := stop_speaking |}.

Definition speak (st : State) : State :=
  if speaking (synth st) then st
  else
    let text0 := textInput_value (inputs st) in
    if decide (text0 <> []) then
      let st := with_currentSegments (parseText text0) st in
      let st := prepareDisplayArea (currentSegments st) st in
      let st := setSpeakingState true st in
      forEach
        (fun segment index st => synth_speak (utterance st segment index) st)
        (currentSegments st) st
    else st.

Definition deliver (cb : Callback) (u : Utterance) (st : State) : State :=
  run setSpeakingState (handler_of cb u) st.

(** The click listener of [stopBtn]. *)
Definition stopBtn_click (st : State) : State :=
  if speaking (synth st) then
    with_pauseBtn_innerHTML pause_markup
      (setSpeakingState false (synth_cancel st))
  else st.

End Highlight.

(** The first script of [src/unnamed/part_000]. *)
Module Translate.

Definition parseText := Sentence.parseText.

Definition setSpeakingState (isSpeaking : bool) (st : State) : State :=
  if isSpeaking then
    with_controls
      {| statusIndicator_hidden := false;
         pauseBtn_disabled := false;
         stopBtn_disabled := false;
         playBtn_disabled := true |} st
  else
    let st :=
      with_controls
        {| statusIndicator_hidden := true;
           pauseBtn_disabled := true;
           stopBtn_disabled := true;
           playBtn_disabled := false |} st in
    if speaking (synth st) then synth_cancel st else st.

Definition utterance (st : State) (segment : Segment) (index : nat)
  : Utterance :=
  {| utext := text segment;
     voice := assigned_voice st segment;
     rate := rateInput_value (inputs st);
     pitch := pitchInput_value (inputs st);
     onstart := highlight index;
     onend := finish index;
     onerror := fail_last index |}.

(** [speak], run to its end without another listener running while it
    awaits: [translation] is what [translateText] resolves to (it
    never rejects), used only when the toggle is checked. *)
Definition speak (translation : jsstring) (st : State) : State :=
  if speaking (synth st) then st
  else
    let text0 := textInput_value (inputs st) in
    if decide (text0 <> []) then
      let st := setSpeakingState true st in
      let '(text0, st) :=
        if translateToggle_checked (inputs st) then
          let st := with_isTranslating true st in
          let st := with_statusIndicator_innerHTML translating_markup st in
          if negb (isTranslating st) then (None, st)
          else
            let text0 := text0 ++ [10; 10] ++ translation in
            let st := with_isTranslating false st in
            let st := with_statusIndicator_innerHTML speaking_markup st in
            (Some text0, st)
        else (Some text0, st) in
      match text0 with
      | None => with_isTranslating false st
      | Some text0 =>
          if statusIndicator_hidden (controls st) then st
          else
            let st := with_currentSegments (parseText text0) st in
            let st := prepareDisplayArea (currentSegments st) st in
            if bool_decide (negb (statusIndicator_hidden (controls st)) = false)
            then st
            else
              forEach
                (fun segment index st =>
                   synth_speak (utterance st segment index) st)
                (currentSegments st) st
      end
    else st.

Definition deliver (cb : Callback) (u : Utterance) (st : State) : State :=
  run setSpeakingState (handler_of cb u) st.

End Translate.

(** ** Vocabulary of the statements *)

Definition texts (segments : list Segment) : list jsstring :=
  List.map text segments.

(** A segment as the data model has it: something left after trimming,
    and a language. *)
Definition well_formed (seg : Segment) : Prop :=
  trim (text seg) <> [] /\ (type seg = ko \/ type seg = en).

(** The typing invariant of the loop of [Base.parseText]. *)
Definition base_typed (acc : list Segment * Segment) : Prop :=
  Forall well_formed (fst acc)
  /\ (type (snd acc) = ko \/ type (snd acc) = en \/ snd acc = fresh).

(** The typing invariant of the loop of [Sentence.parseText]. *)
Definition sentence_typed (acc : list Segment * Segment) : Prop :=
  Forall (fun s => type s = ko \/ type s = en) (fst acc)
  /\ (type (snd acc) = ko \/ type (snd acc) = en \/ snd acc = fresh).

(** What a loop holds of the input read so far. *)
Definition flat (acc : list Segment * Segment) : jsstring :=
  concat (texts (fst acc)) ++ text (snd acc).

(** The input read so far by [Base.parseText] is what the loop holds,
    after a dropped run of white space [pre]; once a segment was pushed
    or dropped, the open segment starts with a character that is not
    neutral. *)
Definition conserved (consumed : jsstring) (acc : list Segment * Segment)
  : Prop :=
  exists pre,
    forallb is_space pre = true
    /\ consumed = pre ++ flat acc
    /\ ((pre = [] /\ fst acc = []) \/ speakable (text (snd acc)) = true).

(** The first assignment of the loop body of [Sentence.parseText], on
    its own. *)
Definition settle (cur : Segment) (ct : tag) : Segment :=
  if decide (type cur = unknown) then
    {| text := text cur; type := if decide (ct = neutral) then en else ct |}
  else cur.

(** The name [speak] looks up for a segment: the Korean selection for a
    Korean segment, the English one otherwise. *)
Definition selected_voice_name (st : State) (segment : Segment) : jsstring :=
  if decide (type segment = ko) then voiceSelectKo_value (inputs st)
  else voiceSelectEn_value (inputs st).

(** [submitted] carries the [segments] one by one, in order, and a
    segment whose selected voice name is not registered is there with
    its text, the rate and the pitch of the form, and no voice. *)
Definition submits (st : State) (segments : list Segment)
  (submitted : list Utterance) : Prop :=
  List.map utext submitted = texts segments
  /\ forall (i : nat) (seg : Segment),
       segments !! i = Some seg ->
       voiceMap st !! selected_voice_name st seg = None ->
       exists u,
         submitted !! i = Some u
         /\ utext u = text seg
         /\ rate u = rateInput_value (inputs st)
         /\ pitch u = pitchInput_value (inputs st)
         /\ voice u = None.

(** The text [Translate.speak] segments: the input, followed by two
    line feeds and the translation when the toggle is checked. *)
Definition spoken_text (translation : jsstring) (st : State) : jsstring :=
  if translateToggle_checked (inputs st) then
    textInput_value (inputs st) ++ [10; 10] ++ translation
  else textInput_value (inputs st).



(** ** Sample inputs *)

(** U+C548 U+B155 U+D558 U+C138 U+C694 *)
Definition annyeonghaseyo : jsstring :=
  [0xC548; 0xB155; 0xD558; 0xC138; 0xC694].

Definition hello_korean_world : jsstring :=
  js "Hello " ++ annyeonghaseyo ++ js " world".

(** U+D55C *)
Definition han : N := 0xD55C.

Definition samantha : Voice :=
  {| name := js "Samantha"; lang := js "en-US"; default := true |}.

(** The page at rest with [text0] typed in: the controls as
    [setSpeakingState(false)] leaves them, nothing queued, one English
    voice registered and a Korean voice name selected that the registry
    does not know. *)
Definition page_at_rest (text0 : jsstring) : State :=
  {| inputs :=
       {| textInput_value := text0;
          voiceSelectEn_value := js "Samantha";
          voiceSelectKo_value := js "Yuna";
          rateInput_value := js "1";
          pitchInput_value := js "1";
          translateToggle_checked := false |};
     controls :=
       {| statusIndicator_hidden := true;
          pauseBtn_disabled := true;
          stopBtn_disabled := true;
          playBtn_disabled := false |};
     pauseBtn_innerHTML := pause_markup;
     statusIndicator_innerHTML := loaded_markup;
     display :=
       {| textInput_hidden := false;
          displayArea_hidden := true;
          displayArea_spans := [] |};
     voiceMap := {[ js "Samantha" := samantha ]};
     currentSegments := [];
     isTranslating := false;
     synth := {| queue := []; paused := false |} |}.

(** ** Further vocabulary *)

(** Every code unit of the text is neutral or of the language of the
    segment. *)
Definition pure (seg : Segment) : Prop :=
  Forall (fun u => charType [u] = neutral \/ charType [u] = type seg)
    (text seg).

(** Neighbouring segments differ in language. *)
Fixpoint alternating (segments : list Segment) : Prop :=
  match segments with
  | a :: rest =>
      match rest with
      | b :: _ => type a <> type b /\ alternating rest
      | [] => True
      end
  | [] => True
  end.

(** No sentence terminator among the code units. *)
Definition no_sentence_end (s : jsstring) : bool :=
  forallb (fun u => negb (sentenceEndRegex u)) s.

(** ** Loading the voices *)

Definition with_inputs (i : Inputs) (st : State) : State :=
  {| inputs := i; controls := controls st;
     pauseBtn_innerHTML := pauseBtn_innerHTML st;
     statusIndicator_innerHTML := statusIndicator_innerHTML st;
     display := display st; voiceMap := voiceMap st;
     currentSegments := currentSegments st;
     isTranslating := isTranslating st; synth := synth st |}.

Definition with_voiceMap (m : gmap jsstring Voice) (st : State) : State :=
  {| inputs := inputs st; controls := controls st;
     pauseBtn_innerHTML := pauseBtn_innerHTML st;
     statusIndicator_innerHTML := statusIndicator_innerHTML st;
     display := display st; voiceMap := m;
     currentSegments := currentSegments st;
     isTranslating := isTranslating st; synth := synth st |}.

(** [s.startsWith(prefix)] *)
Fixpoint startsWith (s prefix : jsstring) : bool :=
  match prefix with
  | [] => true
  | p :: prefix' =>
      match s with
      | [] => false
      | c :: s' => (c =? p) && startsWith s' prefix'
      end
  end.

(** [s.includes(needle)] *)
Fixpoint includes (s needle : jsstring) : bool :=
  startsWith s needle
  || match s with
     | [] => false
     | _ :: s' => includes s' needle
     end.

(** [a || b] on values that are an object or [undefined]. *)
Definition or_else {A : Type} (a b : option A) : option A :=
  match a with
  | Some x => Some x
  | None => b
  end.

(** An [option] element of a voice menu. *)
Record MenuOption : Set := {
  textContent : jsstring;
  value : jsstring;
  disabled : bool
}.

(** The options of the two voice menus. *)
Record Menus : Set := {
  voiceSelectEn_options : list MenuOption;
  voiceSelectKo_options : list MenuOption
}.

(** [createOption(voice)]: the label is the name, a space, and the
    language in parentheses. *)
Definition createOption (voice0 : Voice) : MenuOption :=
  {| textContent := name voice0 ++ js " (" ++ lang voice0 ++ js ")";
     value := name voice0;
     disabled := false |}.

(** The option appended when no Korean voice is found: disabled, and
    without a value of its own, so that its value is its text. *)
Definition no_korean_option : MenuOption :=
  {| textContent := js "No Korean voices found";
     value := js "No Korean voices found";
     disabled := true |}.

(** The value of a menu whose options were just rebuilt and whose
    value was not assigned: that of the first option that is not
    disabled, the empty string when there is none. *)
Definition unassigned_value (options : list MenuOption) : jsstring :=
  match find (fun o => negb (disabled o)) options with
  | Some o => value o
  | None => []
  end.

(** [voices.forEach(v => voiceMap.set(v.name, v))] after
    [voiceMap.clear()]. *)
Definition register_voices (voices : list Voice) : gmap jsstring Voice :=
  fold_left (fun m v => <[name v := v]> m) voices ∅.

(** [loadVoices()], on the list [synth.getVoices()] returns;
    [preferredKo] is the test of the Korean default, which differs
    between the scripts. *)
Definition loadVoices_with (preferredKo : Voice -> bool)
  (voices : list Voice) (st : State) : State * Menus :=
  let enVoices := List.filter (fun v => startsWith (lang v) (js "en")) voices in
  let enOptions := List.map createOption enVoices in
  let koVoices := List.filter (fun v => startsWith (lang v) (js "ko")) voices in
  let koOptions := List.map createOption koVoices in
  let defaultEn :=
    or_else (find (fun v => includes (name v) (js "Samantha")) enVoices)
      (or_else (find default enVoices) (head enVoices)) in
  let enValue :=
    match defaultEn with
    | Some v => name v
    | None => unassigned_value enOptions
    end in
  let defaultKo := or_else (find preferredKo koVoices) (head koVoices) in
  let koOptions :=
    if (length koVoices =? 0)%nat then koOptions ++ [no_korean_option]
    else koOptions in
  let koValue :=
    match defaultKo with
    | Some v => name v
    | None => unassigned_value koOptions
    end in
  (with_inputs
     {| textInput_value := textInput_value (inputs st);
        voiceSelectEn_value := enValue;
        voiceSelectKo_value := koValue;
        rateInput_value := rateInput_value (inputs st);
        pitchInput_value := pitchInput_value (inputs st);
        translateToggle_checked := translateToggle_checked (inputs st) |}
     (with_voiceMap (register_voices voices) st),
   {| voiceSelectEn_options := enOptions;
      voiceSelectKo_options := koOptions |}).

(** [loadVoices] of [src/main.js]. *)
Definition loadVoices_main : list Voice -> State -> State * Menus :=
  loadVoices_with
    (fun v => includes (name v) (js "Yuna") || includes (name v) (js "Damien")
              || includes (name v) (js "Sin-ji")).

(** [loadVoices] of both scripts of [src/unnamed/part_000]. *)
Definition loadVoices_part_000 : list Voice -> State -> State * Menus :=
  loadVoices_with
    (fun v => includes (name v) (js "Yuna") || includes (name v) (js "Damien")).

(** Every option that can be chosen names a registered voice. *)
Definition selectable_registered (st : State) (menus : Menus) : Prop :=
  forall o,
    In o (voiceSelectEn_options menus ++ voiceSelectKo_options menus) ->
    disabled o = false ->
    exists v, voiceMap st !! value o = Some v /\ name v = value o.

Definition yuna : Voice :=
  {| name := js "Yuna"; lang := js "ko-KR"; default := false |}.

Definition daniel : Voice :=
  {| name := js "Daniel"; lang := js "en-GB"; default := false |}.

(** ** The remaining listeners *)

(** The click listeners of the second script of
    [src/unnamed/part_000] that [Highlight] leaves out. *)
Module HighlightListeners.

(** The click listener of [playBtn]. *)
Definition playBtn_click (st : State) : State :=
  if paused (synth st) then
    with_statusIndicator_hidden false (synth_resume st)
  else Highlight.speak st.

(** The click listener of [pauseBtn], the same in the three scripts. *)
Definition pauseBtn_click (st : State) : State :=
  if speaking (synth st) && negb (paused (synth st)) then
    with_pauseBtn_innerHTML resume_markup
      (with_statusIndicator_hidden true (synth_pause st))
  else if paused (synth st) then
    with_pauseBtn_innerHTML pause_markup
      (with_statusIndicator_hidden false (synth_resume st))
  else st.

End HighlightListeners.

(** [speak] of the first script of [src/unnamed/part_000] cut at its
    [await], and the listeners of that script. *)
Module TranslateListeners.

(** [speak] from the check of the status indicator to its end, on the
    text to speak. *)
Definition speak_tail (text0 : jsstring) (st : State) : State :=
  if statusIndicator_hidden (controls st) then st
  else
    let st := with_currentSegments (Translate.parseText text0) st in
    let st := prepareDisplayArea (currentSegments st) st in
    if bool_decide (negb (statusIndicator_hidden (controls st)) = false)
    then st
    else
      forEach
        (fun segment index st =>
           synth_speak (Translate.utterance st segment index) st)
        (currentSegments st) st.

(** [speak] up to its [await], or to its end when it does not await:
    the state, and the text held by the suspended call if there is
    one. *)
Definition speak_start (st : State) : State * option jsstring :=
  if speaking (synth st) then (st, None)
  else
    let text0 := textInput_value (inputs st) in
    if decide (text0 <> []) then
      let st := Translate.setSpeakingState true st in
      if translateToggle_checked (inputs st) then
        let st := with_isTranslating true st in
        let st := with_statusIndicator_innerHTML translating_markup st in
        (st, Some text0)
      else (speak_tail text0 st, None)
    else (st, None).

(** The suspended call, resumed with what [translateText] resolved
    to. *)
Definition speak_resume (text0 translation : jsstring) (st : State) : State :=
  if negb (isTranslating st) then with_isTranslating false st
  else
    let text0 := text0 ++ [10; 10] ++ translation in
    let st := with_isTranslating false st in
    let st := with_statusIndicator_innerHTML speaking_markup st in
    speak_tail text0 st.

(** The click listener of [playBtn]. *)
Definition playBtn_click (st : State) : State * option jsstring :=
  if paused (synth st) then
    (with_statusIndicator_hidden false (synth_resume st), None)
  else speak_start st.

(** The click listener of [stopBtn]. *)
Definition stopBtn_click (st : State) : State :=
  if isTranslating st then
    with_statusIndicator_hidden true
      (Translate.setSpeakingState false (with_isTranslating false st))
  else if speaking (synth st) then
    Translate.setSpeakingState false (synth_cancel st)
  else st.


End TranslateListeners.

(** ** The page of [src/main.js] under clicks *)

Inductive Click : Set := click_play | click_pause | click_stop.

(** A click reaches the listener of a button that is not disabled. *)
Definition click (st : State) (c : Click) : State :=
  match c with
  | click_play =>
      if playBtn_disabled (controls st) then st else Base.playBtn_click st
  | click_pause =>
      if pauseBtn_disabled (controls st) then st else Base.pauseBtn_click st
  | click_stop =>
      if stopBtn_disabled (controls st) then st else Base.stopBtn_click st
  end.

(** The spans of the display area that carry the highlight, by
    position. *)
Definition highlighted (st : State) : list bool :=
  List.map snd (displayArea_spans (display st)).

(** The texts of the spans of the display area. *)
Definition displayed (st : State) : list jsstring :=
  List.map fst (displayArea_spans (display st)).

(** The page at rest with the translation toggle checked. *)
Definition page_translating (text0 : jsstring) : State :=
  with_inputs
    {| textInput_value := text0;
       voiceSelectEn_value := js "Samantha";
       voiceSelectKo_value := js "Yuna";
       rateInput_value := js "1";
       pitchInput_value := js "1";
       translateToggle_checked := true |}
    (page_at_rest text0).

(** ** Where the sentence-splitting segmenter drops a piece *)




(** ** Character classes *)

Ltac class_solver :=
  unfold sentenceEndRegex, neutralRegex, koreanRegex, is_space,
    Base.is_high_surrogate, Base.is_low_surrogate, in_range in *;
  simpl existsb in *;
  rewrite ?orb_true_iff, ?orb_false_iff, ?andb_true_iff, ?andb_false_iff,
    ?N.eqb_eq, ?N.eqb_neq, ?N.leb_le, ?N.leb_gt in *;
  lia.

Lemma space_is_neutral u : is_space u = true -> neutralRegex u = true.
Proof. intros H. unfold neutralRegex. rewrite H, orb_true_r. reflexivity. Qed.

Lemma sentence_end_is_neutral u :
  sentenceEndRegex u = true -> neutralRegex u = true.
Proof. intros H. class_solver. Qed.

Lemma neutral_not_korean u : neutralRegex u = true -> koreanRegex u = false.
Proof. intros H. class_solver. Qed.

Lemma neutral_not_high_surrogate u :
  neutralRegex u = true -> Base.is_high_surrogate u = false.
Proof. intros H. class_solver. Qed.

Lemma korean_not_space u : koreanRegex u = true -> is_space u = false.
Proof.
  intros H. destruct (is_space u) eqn:E; [|reflexivity].
  apply space_is_neutral, neutral_not_korean in E. congruence.
Qed.

Lemma charType_neutral_unit u : neutralRegex u = true -> charType [u] = neutral.
Proof.
  intros H. unfold charType, test. simpl.
  rewrite (neutral_not_korean _ H), H. reflexivity.
Qed.

(** ** Trimming *)

Lemma drop_space_all s :
  forallb is_space (drop_space s) = forallb is_space s.
Proof.
  induction s as [|u s IH]; [reflexivity|]. simpl.
  destruct (is_space u) eqn:E; simpl; [exact IH | now rewrite E].
Qed.

Lemma drop_space_nil s :
  drop_space s = [] <-> forallb is_space s = true.
Proof.
  induction s as [|u s IH]; simpl; [tauto|].
  destruct (is_space u); simpl; [exact IH | split; discriminate].
Qed.

Lemma forallb_rev {A} (f : A -> bool) l : forallb f (rev l) = forallb f l.
Proof.
  induction l as [|x l IH]; [reflexivity|]. simpl.
  rewrite forallb_app, IH. simpl. rewrite andb_true_r. apply andb_comm.
Qed.

Lemma trim_nil s : trim s = [] <-> forallb is_space s = true.
Proof.
  unfold trim. rewrite <- (drop_space_all s), <- (forallb_rev _ (drop_space s)).
  rewrite <- drop_space_nil. split.
  - intros H. apply (f_equal (@rev N)) in H. now rewrite rev_involutive in H.
  - intros ->. reflexivity.
Qed.

(** [s.trim().length > 0] holds exactly when [s] has a code unit that is
    not white space. *)
Lemma speakable_spec s : speakable s = negb (forallb is_space s).
Proof.
  unfold speakable. destruct (forallb is_space s) eqn:E.
  - apply trim_nil in E. now rewrite E.
  - destruct (trim s) eqn:T; [|reflexivity].
    apply trim_nil in T. congruence.
Qed.

Lemma speakable_app_l a b : speakable a = true -> speakable (a ++ b) = true.
Proof.
  rewrite !speakable_spec, forallb_app. intros H.
  apply negb_true_iff in H. now rewrite H.
Qed.

Lemma speakable_nonempty s : speakable s = true -> s <> [].
Proof. intros H ->. discriminate. Qed.

(** A character that is not neutral and not empty has a code unit that
    is not white space. *)
Lemma speakable_char char :
  char <> [] -> charType char <> neutral -> speakable char = true.
Proof.
  intros Hne Hct. rewrite speakable_spec. apply negb_true_iff.
  unfold charType, test in Hct.
  destruct (existsb koreanRegex char) eqn:K.
  - apply existsb_exists in K as (u & Hu & Ku).
    apply not_true_is_false. intros F. rewrite forallb_forall in F.
    specialize (F u Hu). rewrite (korean_not_space _ Ku) in F. discriminate.
  - destruct (existsb neutralRegex char) eqn:Ne; [congruence|].
    destruct char as [|u r]; [congruence|]. simpl in *.
    apply orb_false_iff in Ne as [Ne _].
    destruct (is_space u) eqn:S; [|reflexivity].
    apply space_is_neutral in S. congruence.
Qed.

(** ** The base segmenter *)



Lemma well_formed_intro seg :
  speakable (text seg) = true -> type seg = ko \/ type seg = en ->
  well_formed seg.
Proof.
  intros H T. split; [|exact T]. intros E. unfold speakable in H.
  rewrite E in H. discriminate.
Qed.

Lemma charType_cases char :
  charType char = ko \/ charType char = en \/ charType char = neutral.
Proof. unfold charType. repeat case_match; auto. Qed.

Module BaseFacts.
Import Base.

Lemma string_iterator_concat s : concat (string_iterator s) = s.
Proof.
  assert (H : forall n s, (length s <= n)%nat -> concat (string_iterator s) = s).
  { clear s. induction n as [|n IH]; intros [|u [|v r]] L; simpl in *;
      try reflexivity; try lia.
    destruct (is_high_surrogate u && is_low_surrogate v); simpl.
    - rewrite IH by lia. reflexivity.
    - f_equal. apply (IH (v :: r)). simpl. lia. }
  apply (H (length s)). lia.
Qed.

Lemma string_iterator_nonempty s : Forall (fun c => c <> []) (string_iterator s).
Proof.
  assert (H : forall n s, (length s <= n)%nat ->
              Forall (fun c => c <> []) (string_iterator s)).
  { clear s. induction n as [|n IH]; intros [|u [|v r]] L; simpl in *;
      try (constructor; fail); try lia.
    - constructor; [discriminate | constructor].
    - destruct (is_high_surrogate u && is_low_surrogate v).
      + constructor; [discriminate | apply IH; lia].
      + constructor; [discriminate | apply (IH (v :: r)); simpl; lia]. }
  apply (H (length s)). lia.
Qed.

(** A string of neutral code units has no surrogate pair: the iterator
    yields its code units one by one. *)
Lemma string_iterator_neutral s :
  forallb neutralRegex s = true -> string_iterator s = List.map (fun u => [u]) s.
Proof.
  induction s as [|u s IH]; [reflexivity|]. intros H.
  apply andb_true_iff in H as [Hu Hs]. simpl.
  destruct s as [|v r]; [reflexivity|].
  rewrite (neutral_not_high_surrogate _ Hu). simpl andb. cbv iota.
  f_equal. exact (IH Hs).
Qed.


Lemma base_scan_typed acc char : base_typed acc -> base_typed (scan acc char).
Proof.
  destruct acc as [segments cur]. intros [Hs Hc]. unfold scan, base_typed.
  simpl fst in *; simpl snd in *.
  pose proof (charType_cases char) as Hct.
  assert (Hf : cur = fresh -> type cur = unknown) by now intros ->.
  repeat case_decide; simpl; (split; [|intuition congruence]);
    try exact Hs.
  unfold push_if. destruct (speakable (text cur)) eqn:Sp; [|exact Hs].
  apply Forall_app. split; [exact Hs|]. constructor; [|constructor].
  apply well_formed_intro; [exact Sp|].
  destruct Hc as [?|[?| ->]]; auto. simpl in *. congruence.
Qed.

Lemma base_fold_typed chars acc : base_typed acc -> base_typed (fold_left scan chars acc).
Proof.
  revert acc. induction chars as [|c chars IH]; intros acc H; [exact H|].
  simpl. apply IH, base_scan_typed, H.
Qed.

Lemma base_parseText_well_formed text0 : Forall well_formed (parseText text0).
Proof.
  unfold parseText.
  pose proof (base_fold_typed (string_iterator text0) ([], fresh)) as H.
  destruct (fold_left scan (string_iterator text0) ([], fresh)) as [segments cur].
  destruct H as [Hs Hc]; [split; simpl; auto|]. simpl in *.
  unfold push_if. destruct (speakable (text cur)) eqn:Sp; [|exact Hs].
  apply Forall_app. split; [exact Hs|]. constructor; [|constructor].
  apply well_formed_intro; [exact Sp|].
  destruct Hc as [?|[?| ->]]; auto. discriminate.
Qed.



Lemma texts_snoc segments seg :
  concat (texts (segments ++ [seg])) = concat (texts segments) ++ text seg.
Proof.
  unfold texts. rewrite map_app, concat_app. simpl.
  now rewrite app_nil_r.
Qed.

Lemma scan_conserved consumed acc char :
  char <> [] -> conserved consumed acc ->
  conserved (consumed ++ char) (scan acc char).
Proof.
  destruct acc as [segments cur]. intros Hne (pre & Hpre & Heq & Hd).
  unfold flat in Heq. simpl in Heq, Hd. unfold scan.
  assert (Happ : conserved (consumed ++ char) (segments, append cur char)).
  { exists pre. unfold flat. simpl. split; [exact Hpre|]. split.
    - rewrite Heq, <- !app_assoc. reflexivity.
    - destruct Hd as [?|Sp]; [now left | right; now apply speakable_app_l]. }
  case_decide as Hu.
  { destruct Happ as (p & ? & ? & ?). exists p. unfold flat in *. simpl in *. tauto. }
  case_decide as Hn; [exact Happ|].
  case_decide as Ht; [exact Happ|].
  assert (Sc : speakable char = true) by now apply speakable_char.
  unfold push_if. destruct (speakable (text cur)) eqn:Sp.
  - exists pre. unfold flat. simpl. split; [exact Hpre|]. split; [|now right].
    rewrite texts_snoc, Heq, <- !app_assoc. reflexivity.
  - destruct Hd as [[-> ->]|?]; [|congruence].
    exists (text cur). unfold flat. simpl. rewrite speakable_spec in Sp.
    apply negb_false_iff in Sp. split; [exact Sp|]. split; [|now right].
    now rewrite Heq.
Qed.

Lemma fold_conserved chars : forall consumed acc,
  Forall (fun c => c <> []) chars -> conserved consumed acc ->
  conserved (consumed ++ concat chars) (fold_left scan chars acc).
Proof.
  induction chars as [|c chars IH]; intros consumed acc Hne H; simpl.
  - now rewrite app_nil_r.
  - inversion Hne; subst. rewrite app_assoc. apply IH; [assumption|].
    now apply scan_conserved.
Qed.

Lemma parseText_conserved text0 :
  exists pre,
    forallb is_space pre = true
    /\ text0 = pre ++ concat (texts (parseText text0)).
Proof.
  unfold parseText.
  pose proof (fold_conserved (string_iterator text0) [] ([], fresh)
                (string_iterator_nonempty text0)) as H.
  rewrite string_iterator_concat in H. simpl in H.
  destruct (fold_left scan (string_iterator text0) ([], fresh)) as [segments cur].
  destruct H as (pre & Hpre & Heq & Hd).
  { exists []. unfold flat. simpl. auto. }
  unfold flat in Heq. simpl in Heq, Hd. unfold push_if.
  destruct (speakable (text cur)) eqn:Sp.
  - exists pre. split; [exact Hpre|]. now rewrite texts_snoc.
  - destruct Hd as [[-> ->]|?]; [|congruence].
    exists (text cur). rewrite speakable_spec in Sp.
    apply negb_false_iff in Sp. split; [exact Sp|].
    simpl in *. now rewrite app_nil_r.
Qed.

(** Neutral code units are absorbed by the open segment. *)
Lemma base_fold_neutral l : forall segments cur,
  forallb neutralRegex l = true ->
  type cur = en \/ type cur = unknown ->
  fold_left scan (List.map (fun u => [u]) l) (segments, cur)
  = (segments,
     {| text := text cur ++ l;
        type := match l with [] => type cur | _ => en end |}).
Proof.
  induction l as [|u l IH]; intros segments cur Hn Ht.
  - simpl. rewrite app_nil_r. now destruct cur.
  - apply andb_true_iff in Hn as [Hu Hl]. cbn [fold_left List.map].
    assert (Hs : scan (segments, cur) [u]
                 = (segments, {| text := text cur ++ [u]; type := en |})).
    { unfold scan. rewrite (charType_neutral_unit _ Hu).
      destruct Ht as [Ht|Ht]; repeat case_decide; try congruence;
        unfold append; now rewrite ?Ht. }
    rewrite Hs, IH by auto. simpl. rewrite <- app_assoc. simpl.
    now destruct l.
Qed.

Lemma base_parseText_neutral text0 :
  forallb neutralRegex text0 = true -> speakable text0 = true ->
  parseText text0 = [ {| text := text0; type := en |} ].
Proof.
  intros Hn Sp. unfold parseText.
  rewrite (string_iterator_neutral _ Hn).
  rewrite (base_fold_neutral text0 [] fresh Hn) by (now right). simpl.
  rewrite Sp. simpl. destruct text0; [discriminate | reflexivity].
Qed.

End BaseFacts.

(** ** The sentence-splitting segmenter *)

Module SentenceFacts.
Import Sentence.


Lemma settle_text cur ct : text (settle cur ct) = text cur.
Proof. unfold settle. now case_decide. Qed.

Lemma push_nonempty_texts segments seg :
  concat (texts (push_if (0 <? length (text seg))%nat segments seg))
  = concat (texts segments) ++ text seg.
Proof.
  destruct (text seg) eqn:E; simpl.
  - now rewrite app_nil_r.
  - rewrite BaseFacts.texts_snoc, E. reflexivity.
Qed.

Lemma scan_flat acc char :
  flat (scan acc char) = flat acc ++ char.
Proof.
  destruct acc as [segments cur]. unfold scan, flat.
  fold (settle cur (charType char)).
  destruct (bool_decide (charType char <> neutral)
            && bool_decide (charType char <> type (settle cur (charType char)))).
  - simpl. rewrite push_nonempty_texts, settle_text. reflexivity.
  - destruct (test sentenceEndRegex char); simpl.
    + rewrite BaseFacts.texts_snoc. simpl. rewrite settle_text.
      now rewrite app_nil_r, app_assoc.
    + rewrite settle_text. now rewrite app_assoc.
Qed.

Lemma fold_flat chars : forall acc,
  flat (fold_left scan chars acc) = flat acc ++ concat chars.
Proof.
  induction chars as [|c chars IH]; intros acc; simpl.
  - now rewrite app_nil_r.
  - rewrite IH, scan_flat, <- app_assoc. reflexivity.
Qed.

Lemma units_concat s : concat (units s) = s.
Proof. induction s as [|u s IH]; simpl; [reflexivity | now rewrite IH]. Qed.

(** Nothing is lost before the final filter. *)
Lemma raw_segments_concat text0 : concat (texts (raw_segments text0)) = text0.
Proof.
  unfold raw_segments.
  pose proof (fold_flat (units text0) ([], fresh)) as H.
  destruct (fold_left scan (units text0) ([], fresh)) as [segments cur].
  unfold flat in H. simpl in H.
  rewrite push_nonempty_texts, H. apply units_concat.
Qed.



Lemma settle_typed cur ct :
  ct = ko \/ ct = en \/ ct = neutral ->
  type cur = ko \/ type cur = en \/ cur = fresh ->
  type (settle cur ct) = ko \/ type (settle cur ct) = en.
Proof.
  intros Hct Hc. unfold settle.
  assert (Hf : cur = fresh -> type cur = unknown) by now intros ->.
  repeat case_decide; simpl; intuition congruence.
Qed.

Lemma sentence_scan_typed acc char : sentence_typed acc -> sentence_typed (scan acc char).
Proof.
  destruct acc as [segments cur]. intros [Hs Hc]. simpl in Hs, Hc.
  pose proof (charType_cases char) as Hct.
  pose proof (settle_typed cur (charType char) Hct Hc) as Hset.
  unfold scan. fold (settle cur (charType char)).
  destruct (bool_decide (charType char <> neutral)
            && bool_decide (charType char <> type (settle cur (charType char))))
    eqn:Ch.
  - apply andb_true_iff in Ch as [Ch _]. apply bool_decide_eq_true in Ch.
    split; simpl; [|intuition congruence].
    unfold push_if. case_match; [|exact Hs].
    apply Forall_app. split; [exact Hs | constructor; [exact Hset | constructor]].
  - destruct (test sentenceEndRegex char); split; simpl; auto.
    + apply Forall_app.
      split; [exact Hs | constructor; [exact Hset | constructor]].
    + tauto.
Qed.

Lemma sentence_fold_typed chars acc : sentence_typed acc -> sentence_typed (fold_left scan chars acc).
Proof.
  revert acc. induction chars as [|c chars IH]; intros acc H; [exact H|].
  simpl. apply IH, sentence_scan_typed, H.
Qed.

Lemma sentence_parseText_well_formed text0 : Forall well_formed (parseText text0).
Proof.
  unfold parseText, raw_segments.
  pose proof (sentence_fold_typed (units text0) ([], fresh)) as H.
  destruct (fold_left scan (units text0) ([], fresh)) as [segments cur].
  destruct H as [Hs Hc]; [split; simpl; auto|]. simpl in *.
  apply List.Forall_forall. intros seg Hin. apply filter_In in Hin as [Hin Sp].
  apply well_formed_intro; [exact Sp|].
  unfold push_if in Hin. destruct (text cur) eqn:E; simpl in Hin.
  - rewrite List.Forall_forall in Hs. now apply Hs.
  - apply in_app_or in Hin as [Hin|[<-|[]]].
    + rewrite List.Forall_forall in Hs. now apply Hs.
    + destruct Hc as [?|[?| ->]]; auto. discriminate.
Qed.

(** A sentence terminator closes the open segment. *)
Lemma scan_sentence_end segments cur c :
  sentenceEndRegex c = true ->
  scan (segments, cur) [c]
  = (segments ++
       [ {| text := text cur ++ [c];
            type := if decide (type cur = unknown) then en else type cur |} ],
     fresh).
Proof.
  intros H. unfold scan.
  rewrite (charType_neutral_unit _ (sentence_end_is_neutral _ H)).
  simpl. rewrite H. simpl. unfold append.
  case_decide; reflexivity.
Qed.

(** The loop only ever appends to [segments]. *)
Lemma scan_frame segments cur char :
  scan (segments, cur) char
  = (segments ++ fst (scan ([], cur) char), snd (scan ([], cur) char)).
Proof.
  unfold scan, push_if.
  repeat case_match; simpl; rewrite ?app_nil_r; reflexivity.
Qed.

Lemma fold_frame chars : forall segments cur,
  fold_left scan chars (segments, cur)
  = (segments ++ fst (fold_left scan chars ([], cur)),
     snd (fold_left scan chars ([], cur))).
Proof.
  induction chars as [|c chars IH]; intros segments cur; cbn [fold_left].
  - simpl. now rewrite app_nil_r.
  - rewrite (scan_frame segments). destruct (scan ([], cur) c) as [s1 c1].
    cbn [fst snd]. rewrite (IH (segments ++ s1)), (IH s1). cbn [fst snd].
    now rewrite app_assoc.
Qed.

(** What follows a sentence terminator is segmented on its own. *)
Lemma raw_segments_split pre c post :
  sentenceEndRegex c = true ->
  raw_segments (pre ++ c :: post)
  = raw_segments (pre ++ [c]) ++ raw_segments post.
Proof.
  intros H. unfold raw_segments, units.
  replace (pre ++ c :: post) with ((pre ++ [c]) ++ post)
    by now rewrite <- app_assoc.
  rewrite !map_app, !fold_left_app. simpl.
  destruct (fold_left scan (List.map (fun u => [u]) pre) ([], fresh))
    as [s0 c0].
  rewrite (scan_sentence_end _ _ _ H). simpl. rewrite fold_frame.
  destruct (fold_left scan (List.map (fun u => [u]) post) ([], fresh))
    as [s1 c1].
  simpl. unfold push_if. case_match; now rewrite ?app_assoc.
Qed.

Lemma parseText_split pre c post :
  sentenceEndRegex c = true ->
  parseText (pre ++ c :: post) = parseText (pre ++ [c]) ++ parseText post.
Proof.
  intros H. unfold parseText.
  now rewrite (raw_segments_split _ _ _ H), List.filter_app.
Qed.

(** Neutral code units that end no sentence are absorbed by the open
    segment. *)
Lemma scan_neutral segments cur u :
  neutralRegex u = true -> sentenceEndRegex u = false ->
  type cur = en \/ type cur = unknown ->
  scan (segments, cur) [u]
  = (segments, {| text := text cur ++ [u]; type := en |}).
Proof.
  intros Hu Eu Ht. unfold scan. rewrite (charType_neutral_unit _ Hu). simpl.
  rewrite Eu. simpl. unfold append.
  destruct Ht as [Ht|Ht]; case_decide; try congruence; now rewrite ?Ht.
Qed.

Lemma sentence_fold_neutral l : forall segments cur,
  forallb neutralRegex l = true ->
  forallb (fun u => negb (sentenceEndRegex u)) l = true ->
  type cur = en \/ type cur = unknown ->
  fold_left scan (units l) (segments, cur)
  = (segments,
     {| text := text cur ++ l;
        type := match l with [] => type cur | _ => en end |}).
Proof.
  induction l as [|u l IH]; intros segments cur Hn He Ht.
  - simpl. rewrite app_nil_r. now destruct cur.
  - apply andb_true_iff in Hn as [Hu Hl].
    apply andb_true_iff in He as [Eu El]. apply negb_true_iff in Eu.
    unfold units. cbn [fold_left List.map].
    rewrite (scan_neutral _ _ _ Hu Eu Ht).
    unfold units in IH. rewrite IH by auto. simpl.
    rewrite <- app_assoc. simpl. now destruct l.
Qed.

Lemma sentence_parseText_neutral text0 :
  forallb neutralRegex text0 = true -> speakable text0 = true ->
  forallb (fun u => negb (sentenceEndRegex u)) (removelast text0) = true ->
  parseText text0 = [ {| text := text0; type := en |} ].
Proof.
  intros Hn Sp He.
  assert (Hne : text0 <> []) by now apply speakable_nonempty.
  destruct (exists_last Hne) as (body & z & ->).
  rewrite removelast_last in He.
  rewrite forallb_app in Hn. apply andb_true_iff in Hn as [Hb Hz].
  simpl in Hz. rewrite andb_true_r in Hz.
  unfold parseText, raw_segments, units.
  rewrite map_app, fold_left_app. fold (units body).
  rewrite (sentence_fold_neutral body [] fresh Hb He) by (now right).
  cbn [fold_left List.map].
  set (cur := {| text := text fresh ++ body;
                 type := match body with [] => type fresh | _ => en end |}).
  assert (Ht : type cur = en \/ type cur = unknown)
    by (subst cur; destruct body; simpl; auto).
  assert (Hx : text cur ++ [z] = body ++ [z]) by reflexivity.
  destruct (sentenceEndRegex z) eqn:Ez.
  - rewrite (scan_sentence_end _ _ _ Ez), Hx.
    cbn [push_if text fresh length Nat.ltb Nat.leb app List.filter].
    rewrite Sp. destruct Ht as [-> | ->]; reflexivity.
  - rewrite (scan_neutral _ _ _ Hz Ez Ht), Hx. cbn [text push_if].
    replace (0 <? length (body ++ [z]))%nat with true
      by (symmetry; apply Nat.ltb_lt; rewrite length_app; simpl; lia).
    simpl. now rewrite Sp.
Qed.

End SentenceFacts.

(** ** The queue built by [speak] *)

Lemma with_synth_id st :
  with_synth {| queue := queue (synth st); paused := paused (synth st) |} st = st.
Proof. destruct st as [? ? ? ? ? ? ? ? []]. reflexivity. Qed.

(** A loop whose body only submits an utterance appends one utterance
    per element, in order. *)
Lemma forEach_submits (mk : State -> Segment -> nat -> Utterance) :
  (forall u st seg i, mk (synth_speak u st) seg i = mk st seg i) ->
  forall l k st,
    forEach_from k (fun seg i st => synth_speak (mk st seg i) st) l st
    = with_synth
        {| queue := queue (synth st)
                    ++ imap (fun i seg => mk st seg (k + i)%nat) l;
           paused := paused (synth st) |} st.
Proof.
  intros Hmk. induction l as [|x l IH]; intros k st.
  - simpl. rewrite app_nil_r. symmetry. apply with_synth_id.
  - cbn [forEach_from imap]. rewrite IH. unfold with_synth, synth_speak. simpl.
    rewrite <- app_assoc. simpl. rewrite Nat.add_0_r.
    do 4 f_equal. apply imap_ext. intros i y _. simpl.
    change (mk (synth_speak (mk st x k) st) y (S k + i)%nat
            = mk st y (k + S i)%nat).
    rewrite Hmk. f_equal. lia.
Qed.

Lemma speaking_false_queue s : speaking s = false -> queue s = [].
Proof. unfold speaking. now destruct (queue s). Qed.

Lemma base_speak_submits st :
  speaking (synth st) = false -> textInput_value (inputs st) <> [] ->
  Base.speak st
  = with_synth
      {| queue :=
           imap (fun i seg =>
                   Base.utterance (Base.parseText (textInput_value (inputs st)))
                     (Base.setSpeakingState true st) seg i)
             (Base.parseText (textInput_value (inputs st)));
         paused := paused (synth st) |}
      (Base.setSpeakingState true st).
Proof.
  intros Hs Hne. unfold Base.speak. rewrite Hs.
  case_decide; [|contradiction]. unfold forEach.
  rewrite forEach_submits by reflexivity. simpl.
  now rewrite (speaking_false_queue _ Hs).
Qed.

Lemma imap_utext (mk : nat -> Segment -> Utterance) l :
  (forall i seg, utext (mk i seg) = text seg) ->
  List.map utext (imap mk l) = texts l.
Proof.
  revert mk. induction l as [|x l IH]; intros mk H; [reflexivity|].
  simpl. rewrite H. f_equal. apply IH. intros i seg. apply H.
Qed.

Lemma assigned_voice_lookup st seg :
  assigned_voice st seg = voiceMap st !! selected_voice_name st seg.
Proof. unfold assigned_voice, selected_voice_name. now case_decide. Qed.

Lemma imap_submits (mk : nat -> Segment -> Utterance) st segments :
  (forall i seg,
      utext (mk i seg) = text seg
      /\ rate (mk i seg) = rateInput_value (inputs st)
      /\ pitch (mk i seg) = pitchInput_value (inputs st)
      /\ voice (mk i seg) = voiceMap st !! selected_voice_name st seg) ->
  submits st segments (imap mk segments).
Proof.
  intros H. split.
  - apply imap_utext. intros i seg. apply H.
  - intros i seg Hi Hv. exists (mk i seg).
    rewrite list_lookup_imap, Hi. destruct (H i seg) as (? & ? & ? & Hvoice).
    rewrite Hv in Hvoice. auto.
Qed.

Lemma base_speak_faithful st :
  speaking (synth st) = false -> textInput_value (inputs st) <> [] ->
  submits st (Base.parseText (textInput_value (inputs st)))
    (queue (synth (Base.speak st))).
Proof.
  intros Hs Hne. rewrite (base_speak_submits st Hs Hne). simpl.
  apply imap_submits. intros i seg. repeat split.
  exact (assigned_voice_lookup st seg).
Qed.

Lemma translate_speak_faithful translation st :
  speaking (synth st) = false -> textInput_value (inputs st) <> [] ->
  submits st (Sentence.parseText (spoken_text translation st))
    (queue (synth (Translate.speak translation st))).
Proof.
  intros Hs Hne. unfold Translate.speak, spoken_text. rewrite Hs.
  case_decide; [|contradiction]. simpl.
  destruct (translateToggle_checked (inputs st)); simpl;
    unfold forEach; rewrite forEach_submits by reflexivity; simpl;
    rewrite (speaking_false_queue _ Hs); simpl;
    apply imap_submits; intros i seg; repeat split;
    exact (assigned_voice_lookup st seg).
Qed.

(** ** Callbacks and the aggregate state *)

Lemma is_last_spec index n : is_last index n = true <-> S index = n.
Proof. unfold is_last. rewrite bool_decide_eq_true. lia. Qed.

Lemma is_last_false index n : S index <> n -> is_last index n = false.
Proof.
  intros H. destruct (is_last index n) eqn:E; [|reflexivity].
  apply is_last_spec in E. contradiction.
Qed.


Lemma highlight_set_idle st : status (Highlight.setSpeakingState false st) = Idle.
Proof. unfold Highlight.setSpeakingState. simpl. now case_match. Qed.

Lemma translate_set_idle st : status (Translate.setSpeakingState false st) = Idle.
Proof. unfold Translate.setSpeakingState. simpl. now case_match. Qed.




(** The first script of [src/unnamed/part_000] checks the index in both
    handlers. *)
Lemma translate_callback st0 seg index cb st :
  cb <> start_event ->
  (S index = length (currentSegments st) ->
     status (Translate.deliver cb (Translate.utterance st0 seg index) st) = Idle)
  /\ (S index <> length (currentSegments st) ->
        status (Translate.deliver cb (Translate.utterance st0 seg index) st)
        = status st).
Proof.
  intros Hcb. unfold Translate.deliver, Translate.utterance.
  split; intros H; [apply is_last_spec in H | apply is_last_false in H];
    (destruct cb; [contradiction| |]);
    cbn [handler_of onend onerror run];
    change (currentSegments (unhighlightSegment index st))
      with (currentSegments st);
    rewrite H; solve [exact (translate_set_idle _) | reflexivity].
Qed.

(** The second script checks the index on [onend] only. *)
Lemma highlight_end_callback st0 seg index st :
  (S index = length (currentSegments st) ->
     status (Highlight.deliver end_event (Highlight.utterance st0 seg index) st)
     = Idle)
  /\ (S index <> length (currentSegments st) ->
        status (Highlight.deliver end_event (Highlight.utterance st0 seg index) st)
        = status st).
Proof.
  unfold Highlight.deliver, Highlight.utterance.
  split; intros H; [apply is_last_spec in H | apply is_last_false in H];
    cbn [handler_of onend run];
    change (currentSegments (unhighlightSegment index st))
      with (currentSegments st);
    rewrite H; solve [exact (highlight_set_idle _) | reflexivity].
Qed.

Lemma highlight_error_callback st0 seg index st :
  status (Highlight.deliver error_event (Highlight.utterance st0 seg index) st)
  = Idle
  /\ queue (synth (Highlight.deliver error_event
                     (Highlight.utterance st0 seg index) st)) = [].
Proof.
  unfold Highlight.deliver, Highlight.utterance. simpl. split.
  - apply highlight_set_idle.
  - unfold Highlight.setSpeakingState. simpl.
    destruct (speaking (synth st)) eqn:E; simpl; [reflexivity|].
    now apply speaking_false_queue.
Qed.

(** ** Start and stop *)

Lemma base_speak_empty_text st :
  textInput_value (inputs st) = [] -> Base.speak st = st.
Proof.
  intros H. unfold Base.speak. rewrite H.
  destruct (speaking (synth st)); [reflexivity|]. now case_decide.
Qed.

(** With a text that is not empty and yields no segment, [speak] sets
    the controls to speaking and queues nothing. *)
Lemma base_speak_no_segments st :
  speaking (synth st) = false -> paused (synth st) = false ->
  textInput_value (inputs st) <> [] ->
  Base.parseText (textInput_value (inputs st)) = [] ->
  status (Base.speak st) = Speaking /\ queue (synth (Base.speak st)) = [].
Proof.
  intros Hs Hp Hne Hnil. rewrite (base_speak_submits st Hs Hne), Hnil.
  unfold status. simpl. rewrite Hp. auto.
Qed.


Lemma base_stop_silent st :
  speaking (synth st) = false -> Base.stopBtn_click st = st.
Proof. intros H. unfold Base.stopBtn_click. now rewrite H. Qed.

Lemma base_stop_idempotent st :
  Base.stopBtn_click (Base.stopBtn_click st) = Base.stopBtn_click st.
Proof.
  destruct (speaking (synth st)) eqn:E.
  - apply base_stop_silent. unfold Base.stopBtn_click. now rewrite E.
  - now rewrite !(base_stop_silent st E).
Qed.


(** A start that queues a segment leaves the controls speaking and the
    engine speaking. *)
Lemma base_speak_starts st :
  speaking (synth st) = false -> paused (synth st) = false ->
  textInput_value (inputs st) <> [] ->
  Base.parseText (textInput_value (inputs st)) <> [] ->
  status (Base.speak st) = Speaking /\ speaking (synth (Base.speak st)) = true.
Proof.
  intros Hs Hp Hne Hsegs. rewrite (base_speak_submits st Hs Hne).
  unfold status, speaking. simpl. rewrite Hp. split; [reflexivity|].
  destruct (Base.parseText (textInput_value (inputs st))); [contradiction|].
  reflexivity.
Qed.


(** ** The pieces of the sentence-splitting segmenter *)







(** ** The segmenter: statements *)

(** C4. Segmenting the greeting, Hello, a space, five Hangul syllables,
    a space, world, yields three segments: Hello with its space as
    Latin, the syllables with their space as Korean, world as Latin. *)
Theorem hello_korean_world_segments :
  Base.parseText hello_korean_world
  = [ {| text := js "Hello "; type := en |};
      {| text := annyeonghaseyo ++ js " "; type := ko |};
      {| text := js "world"; type := en |} ].
Proof. vm_compute. reflexivity. Qed.

(** C7. Every segment either segmenter returns has a text that is not
    empty after trimming and the tag Korean or Latin. *)
Theorem segments_well_formed (input : jsstring) :
  Forall well_formed (Base.parseText input)
  /\ Forall well_formed (Sentence.parseText input).
Proof.
  split.
  - apply BaseFacts.base_parseText_well_formed.
  - apply SentenceFacts.sentence_parseText_well_formed.
Qed.



(** C5, as stated, fails on white space, which is neutral: a single
    space yields no segment. *)
Lemma single_space_yields_no_segment :
  ~ (forall input : jsstring,
        input <> [] -> forallb neutralRegex input = true ->
        Base.parseText input = [ {| text := input; type := en |} ]).
Proof.
  intros H. specialize (H (js " ")).
  assert (E : Base.parseText (js " ") = []) by (vm_compute; reflexivity).
  rewrite E in H. discriminate H; [discriminate | reflexivity].
Qed.

(** C5, amended. An input of neutral characters only, one of which is
    not white space, yields one Latin segment holding the whole input:
    from the base segmenter always, from the sentence-splitting one when
    no sentence terminator stands before the last character. *)
Theorem neutral_input_one_latin_segment (input : jsstring) :
  forallb neutralRegex input = true ->
  speakable input = true ->
  Base.parseText input = [ {| text := input; type := en |} ]
  /\ (forallb (fun u => negb (sentenceEndRegex u)) (removelast input) = true ->
      Sentence.parseText input = [ {| text := input; type := en |} ]).
Proof.
  intros Hn Sp. split.
  - now apply BaseFacts.base_parseText_neutral.
  - intros He. now apply SentenceFacts.sentence_parseText_neutral.
Qed.

Lemma neutral_input_one_latin_segment_witness :
  (forallb neutralRegex (js "123, 456!") = true
   /\ speakable (js "123, 456!") = true)
  /\ Base.parseText (js "123, 456!")
     = [ {| text := js "123, 456!"; type := en |} ]
  /\ Sentence.parseText (js "123, 456!")
     = [ {| text := js "123, 456!"; type := en |} ].
Proof.
  split; [split; reflexivity|].
  destruct (neutral_input_one_latin_segment (js "123, 456!")) as [Hb Hs];
    [reflexivity | reflexivity |].
  split; [exact Hb | apply Hs; reflexivity].
Defined.

(** C6. In the sentence-splitting segmenter, reading a full stop, an
    exclamation mark, a question mark or a line feed appends it to the
    open segment, closes that segment whatever its language, and leaves
    a fresh open segment of unknown language: what follows is segmented
    as an input of its own. *)
Theorem sentence_end_closes_segment (c : N) :
  sentenceEndRegex c = true ->
  (forall segments cur,
      Sentence.scan (segments, cur) [c]
      = (segments ++
           [ {| text := text cur ++ [c];
                type := if decide (type cur = unknown) then en
                        else type cur |} ],
         {| text := []; type := unknown |}))
  /\ (forall pre post,
         Sentence.parseText (pre ++ c :: post)
         = Sentence.parseText (pre ++ [c]) ++ Sentence.parseText post).
Proof.
  intros H. split.
  - intros segments cur. now apply SentenceFacts.scan_sentence_end.
  - intros pre post. now apply SentenceFacts.parseText_split.
Qed.

Lemma sentence_end_closes_segment_witness :
  sentenceEndRegex 46 = true
  /\ (forall segments cur,
         Sentence.scan (segments, cur) [46]
         = (segments ++
              [ {| text := text cur ++ [46];
                   type := if decide (type cur = unknown) then en
                           else type cur |} ],
            {| text := []; type := unknown |}))
  /\ (forall pre post,
         Sentence.parseText (pre ++ 46 :: post)
         = Sentence.parseText (pre ++ [46]) ++ Sentence.parseText post).
Proof.
  split; [reflexivity|]. apply (sentence_end_closes_segment 46). reflexivity.
Defined.

(** ** The playback controller: statements *)

(** C2. The second script of part_000 assigns [onerror] without the
    index check of [onend]: with two segments queued, an error on the
    first one returns the controls to rest and cancels the second. *)
Theorem highlight_mid_queue_error_goes_idle :
  let st := Highlight.speak (page_at_rest [97; han]) in
  exists u0 u1,
    queue (synth st) = [u0; u1]
    /\ status st = Speaking
    /\ status (Highlight.deliver end_event u0 st) = Speaking
    /\ status (Highlight.deliver error_event u0 st) = Idle
    /\ queue (synth (Highlight.deliver error_event u0 st)) = [].
Proof.
  vm_compute. eexists. eexists. repeat split.
Qed.

(** C3. Started at rest on a single space, which is not the empty text
    and yields no segment, [speak] of main.js and of the second script
    of part_000 queue nothing and set the controls to speaking. *)
Theorem whitespace_start_sets_speaking :
  let st := page_at_rest (js " ") in
  status st = Idle
  /\ Base.parseText (js " ") = []
  /\ queue (synth (Base.speak st)) = []
  /\ status (Base.speak st) = Speaking
  /\ Sentence.parseText (js " ") = []
  /\ queue (synth (Highlight.speak st)) = []
  /\ status (Highlight.speak st) = Speaking.
Proof. vm_compute. repeat split. Qed.

(** C8. While the engine reports speaking, which is the test [speak]
    makes for a playback in progress, [speak] changes nothing: controls,
    segments and queue are as they were. *)
Theorem speak_while_speaking_is_noop (st : State) :
  speaking (synth st) = true ->
  Base.speak st = st
  /\ Highlight.speak st = st
  /\ (forall translation, Translate.speak translation st = st).
Proof.
  intros H. unfold Base.speak, Highlight.speak, Translate.speak.
  rewrite H. auto.
Qed.

Lemma speak_while_speaking_is_noop_witness :
  let st := Base.speak (page_at_rest hello_korean_world) in
  (status st = Speaking /\ speaking (synth st) = true)
  /\ Base.speak st = st
  /\ Highlight.speak st = st
  /\ (forall translation, Translate.speak translation st = st).
Proof.
  split; [split; reflexivity|].
  apply (speak_while_speaking_is_noop
           (Base.speak (page_at_rest hello_korean_world))).
  reflexivity.
Defined.

(** C9. In main.js, after a start on a single space the controls say
    speaking, the stop button is enabled and the engine has nothing
    queued: the stop listener, which tests the engine, leaves the state
    as it is. *)
Theorem stop_after_whitespace_start_stays_speaking :
  let st := Base.playBtn_click (page_at_rest (js " ")) in
  status st = Speaking
  /\ stopBtn_disabled (controls st) = false
  /\ Base.stopBtn_click st = st
  /\ status (Base.stopBtn_click st) = Speaking.
Proof. repeat split. Qed.

(** C10. Whatever the voice registry holds, [speak] submits one
    utterance per segment, in the order of the segments; a segment
    whose selected voice name is not registered is submitted with its
    text, the rate and the pitch, and no voice. *)
Theorem missing_voice_still_submitted (st : State) :
  speaking (synth st) = false ->
  textInput_value (inputs st) <> [] ->
  submits st (Base.parseText (textInput_value (inputs st)))
    (queue (synth (Base.speak st)))
  /\ (forall translation,
         submits st (Sentence.parseText (spoken_text translation st))
           (queue (synth (Translate.speak translation st)))).
Proof.
  intros Hs Hne. split.
  - now apply base_speak_faithful.
  - intros translation. now apply translate_speak_faithful.
Qed.

Lemma missing_voice_still_submitted_witness :
  let st := page_at_rest hello_korean_world in
  (speaking (synth st) = false /\ textInput_value (inputs st) <> [])
  /\ submits st (Base.parseText (textInput_value (inputs st)))
       (queue (synth (Base.speak st)))
  /\ (forall translation,
         submits st (Sentence.parseText (spoken_text translation st))
           (queue (synth (Translate.speak translation st)))).
Proof.
  split; [split; [reflexivity | discriminate]|].
  apply (missing_voice_still_submitted (page_at_rest hello_korean_world));
    [reflexivity | discriminate].
Defined.

(** ** More on the segmenters *)

Lemma forallb_concat {A} (p : A -> bool) (l : list (list A)) :
  forallb p (concat l) = forallb (forallb p) l.
Proof.
  induction l as [|x l IH]; [reflexivity|]. simpl.
  now rewrite forallb_app, IH.
Qed.

Lemma filter_nil_iff {A} (p : A -> bool) (l : list A) :
  List.filter p l = [] <-> forallb (fun x => negb (p x)) l = true.
Proof.
  induction l as [|x l IH]; simpl; [tauto|].
  destruct (p x); simpl; [split; discriminate | exact IH].
Qed.

Lemma all_space_neutral s :
  forallb is_space s = true -> forallb neutralRegex s = true.
Proof.
  intros H. apply forallb_forall. intros u Hu.
  apply space_is_neutral. rewrite forallb_forall in H. now apply H.
Qed.

Lemma base_no_segment_iff_blank input :
  Base.parseText input = [] <-> forallb is_space input = true.
Proof.
  split.
  - intros E. destruct (BaseFacts.parseText_conserved input) as (pre & Hpre & Hin).
    rewrite E in Hin. simpl in Hin. rewrite app_nil_r in Hin. now subst.
  - intros Hs. unfold Base.parseText.
    rewrite (BaseFacts.string_iterator_neutral _ (all_space_neutral _ Hs)).
    rewrite (BaseFacts.base_fold_neutral input [] fresh (all_space_neutral _ Hs))
      by (now right).
    simpl. rewrite speakable_spec, Hs. reflexivity.
Qed.

Lemma sentence_no_segment_iff_blank input :
  Sentence.parseText input = [] <-> forallb is_space input = true.
Proof.
  split.
  - intros E. unfold Sentence.parseText in E. apply filter_nil_iff in E.
    rewrite <- (SentenceFacts.raw_segments_concat input), forallb_concat.
    unfold texts. rewrite forallb_forall. intros s Hs.
    apply in_map_iff in Hs as (seg & <- & Hseg).
    rewrite forallb_forall in E. specialize (E seg Hseg).
    rewrite speakable_spec, negb_involutive in E. exact E.
  - intros Hs. unfold Sentence.parseText. apply filter_nil_iff.
    rewrite <- (SentenceFacts.raw_segments_concat input), forallb_concat in Hs.
    apply forallb_forall. intros seg Hseg.
    rewrite forallb_forall in Hs. rewrite speakable_spec, negb_involutive.
    apply Hs. unfold texts. now apply in_map.
Qed.

(** X1. Either segmenter returns no segment exactly for the inputs made
    of white space only, the empty input among them. *)
Theorem no_segment_iff_blank (input : jsstring) :
  (Base.parseText input = [] <-> forallb is_space input = true)
  /\ (Sentence.parseText input = [] <-> forallb is_space input = true).
Proof.
  split; [apply base_no_segment_iff_blank | apply sentence_no_segment_iff_blank].
Qed.

(** *** Language purity *)

Lemma surrogate_is_latin u :
  in_range 0xD800 0xDFFF u = true ->
  koreanRegex u = false /\ neutralRegex u = false.
Proof. intros H. split; class_solver. Qed.

Lemma high_surrogate_range u :
  Base.is_high_surrogate u = true -> in_range 0xD800 0xDFFF u = true.
Proof. intros H. class_solver. Qed.

Lemma low_surrogate_range u :
  Base.is_low_surrogate u = true -> in_range 0xD800 0xDFFF u = true.
Proof. intros H. class_solver. Qed.

Lemma charType_surrogate u :
  in_range 0xD800 0xDFFF u = true -> charType [u] = en.
Proof.
  intros H. destruct (surrogate_is_latin u H) as [K Ne].
  unfold charType, test. simpl. now rewrite K, Ne.
Qed.

Lemma charType_pair u v :
  in_range 0xD800 0xDFFF u = true -> in_range 0xD800 0xDFFF v = true ->
  charType [u; v] = en.
Proof.
  intros Hu Hv. destruct (surrogate_is_latin u Hu) as [Ku Nu].
  destruct (surrogate_is_latin v Hv) as [Kv Nv].
  unfold charType, test. simpl. now rewrite Ku, Kv, Nu, Nv.
Qed.

(** The characters the string iterator yields are classified as each of
    their code units is. *)
Lemma string_iterator_uniform s :
  Forall (fun c => Forall (fun u => charType [u] = charType c) c)
    (Base.string_iterator s).
Proof.
  assert (H : forall n s, (length s <= n)%nat ->
              Forall (fun c => Forall (fun u => charType [u] = charType c) c)
                (Base.string_iterator s)).
  { clear s. induction n as [|n IH]; intros [|u [|v r]] L; simpl in *;
      try (constructor; fail); try lia.
    - repeat constructor.
    - destruct (Base.is_high_surrogate u && Base.is_low_surrogate v) eqn:E.
      + apply andb_true_iff in E as [Eu Ev].
        apply high_surrogate_range in Eu. apply low_surrogate_range in Ev.
        constructor; [|apply IH; lia].
        rewrite (charType_pair u v Eu Ev).
        repeat constructor; now apply charType_surrogate.
      + constructor; [repeat constructor | apply (IH (v :: r)); simpl; lia]. }
  apply (H (length s)). lia.
Qed.

Lemma pure_append cur char :
  pure cur ->
  Forall (fun u => charType [u] = neutral \/ charType [u] = type cur) char ->
  pure (append cur char).
Proof. intros Hc Hch. unfold pure, append. simpl. now apply Forall_app. Qed.

Lemma base_scan_pure segments cur char :
  Forall (fun u => charType [u] = charType char) char ->
  Forall pure segments -> pure cur ->
  Forall pure (fst (Base.scan (segments, cur) char))
  /\ pure (snd (Base.scan (segments, cur) char)).
Proof.
  intros Hch Hs Hc. unfold Base.scan.
  assert (Hpush : forall b, Forall pure (push_if b segments cur)).
  { intros []; simpl; [|exact Hs]. apply Forall_app. split; [exact Hs|].
    now constructor. }
  case_decide as Hu.
  - split; [exact Hs|]. unfold pure in *. simpl. apply Forall_app. split.
    + eapply List.Forall_impl; [|exact Hc]. simpl. intros u [?|Hx]; [now left|].
      rewrite Hu in Hx. unfold charType in Hx. repeat case_match; discriminate.
    + eapply List.Forall_impl; [|exact Hch]. simpl. intros u ->.
      case_decide; [now left | now right].
  - case_decide as Hn.
    + split; [exact Hs|]. apply pure_append; [exact Hc|].
      eapply List.Forall_impl; [|exact Hch]. simpl. intros u ->. now left.
    + case_decide as Ht.
      * split; [exact Hs|]. apply pure_append; [exact Hc|].
        eapply List.Forall_impl; [|exact Hch]. simpl. intros u ->. now right.
      * split; [apply Hpush|]. unfold pure. simpl.
        eapply List.Forall_impl; [|exact Hch]. simpl. intros u ->. now right.
Qed.

Lemma base_fold_pure chars : forall segments cur,
  Forall (fun c => Forall (fun u => charType [u] = charType c) c) chars ->
  Forall pure segments -> pure cur ->
  Forall pure (fst (fold_left Base.scan chars (segments, cur)))
  /\ pure (snd (fold_left Base.scan chars (segments, cur))).
Proof.
  induction chars as [|c chars IH]; intros segments cur Hch Hs Hc; [now split|].
  inversion Hch as [|? ? Hc0 Hrest]; subst. cbn [fold_left].
  destruct (base_scan_pure segments cur c Hc0 Hs Hc) as [G1 G2].
  destruct (Base.scan (segments, cur) c) as [s1 c1]. now apply IH.
Qed.

Lemma sentence_scan_pure segments cur u :
  Forall pure segments -> pure cur ->
  Forall pure (fst (Sentence.scan (segments, cur) [u]))
  /\ pure (snd (Sentence.scan (segments, cur) [u])).
Proof.
  intros Hs Hc. unfold Sentence.scan. fold (settle cur (charType [u])).
  assert (Hset : pure (settle cur (charType [u]))).
  { unfold settle. case_decide as Hu; [|exact Hc]. unfold pure in *. simpl.
    eapply List.Forall_impl; [|exact Hc]. simpl. intros w [?|Hx]; [now left|].
    rewrite Hu in Hx. unfold charType in Hx. repeat case_match; discriminate. }
  destruct (bool_decide (charType [u] <> neutral)
            && bool_decide (charType [u] <> type (settle cur (charType [u]))))
    eqn:Ch.
  - simpl. split.
    + unfold push_if. case_match; [|exact Hs].
      apply Forall_app. split; [exact Hs | now constructor].
    + unfold pure. simpl. constructor; [now right | constructor].
  - assert (Hu : charType [u] = neutral
                 \/ charType [u] = type (settle cur (charType [u]))).
    { apply andb_false_iff in Ch as [Ch|Ch]; apply bool_decide_eq_false in Ch.
      - left. destruct (decide (charType [u] = neutral)); tauto.
      - right. destruct (decide (charType [u]
                                 = type (settle cur (charType [u])))); tauto. }
    assert (Happ : pure (append (settle cur (charType [u])) [u])).
    { apply pure_append; [exact Hset | now constructor]. }
    destruct (test sentenceEndRegex [u]); simpl; split; auto.
    + apply Forall_app. split; [exact Hs | now constructor].
    + constructor.
Qed.

Lemma sentence_fold_pure s : forall segments cur,
  Forall pure segments -> pure cur ->
  Forall pure (fst (fold_left Sentence.scan (Sentence.units s) (segments, cur)))
  /\ pure (snd (fold_left Sentence.scan (Sentence.units s) (segments, cur))).
Proof.
  induction s as [|u s IH]; intros segments cur Hs Hc; [now split|].
  unfold Sentence.units. cbn [fold_left List.map].
  destruct (sentence_scan_pure segments cur u Hs Hc) as [H1 H2].
  destruct (Sentence.scan (segments, cur) [u]) as [s1 c1]. now apply IH.
Qed.

(** X2. No segment mixes the languages: in every segment either
    segmenter returns, each code unit is neutral or of the language the
    segment is tagged with. *)
Theorem segments_pure (input : jsstring) :
  Forall pure (Base.parseText input)
  /\ Forall pure (Sentence.parseText input).
Proof.
  assert (Hfresh : pure fresh) by constructor.
  split.
  - unfold Base.parseText.
    destruct (base_fold_pure (Base.string_iterator input) [] fresh
                (string_iterator_uniform input) (List.Forall_nil _) Hfresh)
      as [H1 H2].
    destruct (fold_left Base.scan (Base.string_iterator input) ([], fresh))
      as [segments cur].
    simpl in *. unfold push_if. case_match; [|exact H1].
    apply Forall_app. split; [exact H1 | now constructor].
  - unfold Sentence.parseText, Sentence.raw_segments.
    destruct (sentence_fold_pure input [] fresh (List.Forall_nil _) Hfresh)
      as [H1 H2].
    destruct (fold_left Sentence.scan (Sentence.units input) ([], fresh))
      as [segments cur].
    simpl in *. apply List.Forall_forall. intros seg Hin.
    apply filter_In in Hin as [Hin _]. unfold push_if in Hin.
    rewrite List.Forall_forall in H1.
    case_match; [|now apply H1].
    apply in_app_or in Hin as [Hin|[<-|[]]]; [now apply H1 | exact H2].
Qed.

(** *** Alternation in the base segmenter *)

Lemma alternating_snoc l x :
  alternating l ->
  (forall y, last l = Some y -> type y <> type x) ->
  alternating (l ++ [x]).
Proof.
  induction l as [|a [|b r] IH]; intros Hl Hlast.
  - exact I.
  - simpl. split; [now apply Hlast | exact I].
  - destruct Hl as [Hab Hr]. split; [exact Hab|].
    apply IH; [exact Hr | exact Hlast].
Qed.

(** The loop invariant: the pushed segments alternate, the open segment
    differs from the last pushed one, nothing is pushed before the first
    character is read, and once a segment is pushed the open one holds a
    character that is not neutral. *)
Lemma base_scan_alternating segments cur char :
  char <> [] ->
  alternating segments
  /\ (forall y, last segments = Some y -> type y <> type cur)
  /\ (type cur = unknown -> segments = [])
  /\ (segments <> [] -> speakable (text cur) = true) ->
  let acc := Base.scan (segments, cur) char in
  alternating (fst acc)
  /\ (forall y, last (fst acc) = Some y -> type y <> type (snd acc))
  /\ (type (snd acc) = unknown -> fst acc = [])
  /\ (fst acc <> [] -> speakable (text (snd acc)) = true).
Proof.
  intros Hne (Ha & Hl & Hu & Hs). unfold Base.scan.
  pose proof (charType_cases char) as Hct.
  case_decide as Eu; [|case_decide as En; [|case_decide as Et]]; simpl.
  - rewrite (Hu Eu). repeat split; auto; try discriminate; congruence.
  - repeat split; auto. intros H. now apply speakable_app_l, Hs.
  - repeat split; auto. intros H. now apply speakable_app_l, Hs.
  - assert (Sc : speakable char = true) by now apply speakable_char.
    unfold push_if. destruct (speakable (text cur)) eqn:Sp.
    + split; [now apply alternating_snoc|]. split.
      * intros y Hy. rewrite last_snoc in Hy. injection Hy as <-. congruence.
      * split; [intuition congruence | auto].
    + assert (Hnil : segments = []).
      { destruct segments; [reflexivity|].
        assert (false = true) by (apply Hs; discriminate). discriminate. }
      subst. repeat split; auto; try discriminate; intuition congruence.
Qed.

Lemma base_fold_alternating chars : forall segments cur,
  Forall (fun c => c <> []) chars ->
  alternating segments
  /\ (forall y, last segments = Some y -> type y <> type cur)
  /\ (type cur = unknown -> segments = [])
  /\ (segments <> [] -> speakable (text cur) = true) ->
  let acc := fold_left Base.scan chars (segments, cur) in
  alternating (fst acc)
  /\ (forall y, last (fst acc) = Some y -> type y <> type (snd acc)).
Proof.
  induction chars as [|c chars IH]; intros segments cur Hne H.
  - simpl. tauto.
  - inversion Hne as [|? ? Hc Hrest]; subst. cbn [fold_left].
    pose proof (base_scan_alternating segments cur c Hc H) as H'.
    destruct (Base.scan (segments, cur) c) as [s1 c1]. now apply IH.
Qed.

(** X3. The base segmenter never returns two neighbours of the same
    language: each segment is a run that ends where the language
    changes. *)
Theorem base_segments_alternate (input : jsstring) :
  alternating (Base.parseText input).
Proof.
  unfold Base.parseText.
  destruct (base_fold_alternating (Base.string_iterator input) [] fresh
              (BaseFacts.string_iterator_nonempty input)) as [Ha Hl].
  { repeat split; auto; discriminate. }
  destruct (fold_left Base.scan (Base.string_iterator input) ([], fresh))
    as [segments cur].
  simpl in *. unfold push_if. case_match; [|exact Ha].
  now apply alternating_snoc.
Qed.

(** *** Sentence terminators *)

Lemma forallb_removelast {A} (p : A -> bool) l :
  forallb p l = true -> forallb p (removelast l) = true.
Proof.
  induction l as [|x [|y r] IH]; intros H; [reflexivity | reflexivity|].
  apply andb_true_iff in H as [Hx Hr].
  change (removelast (x :: y :: r)) with (x :: removelast (y :: r)).
  simpl forallb. rewrite Hx. simpl. now apply IH.
Qed.

Lemma not_neutral_not_sentence_end u :
  charType [u] <> neutral -> sentenceEndRegex u = false.
Proof.
  intros H. destruct (sentenceEndRegex u) eqn:E; [|reflexivity].
  apply sentence_end_is_neutral, charType_neutral_unit in E. contradiction.
Qed.

Lemma sentence_scan_terminators segments cur u :
  Forall (fun s => no_sentence_end (removelast (text s)) = true) segments ->
  no_sentence_end (text cur) = true ->
  let acc := Sentence.scan (segments, cur) [u] in
  Forall (fun s => no_sentence_end (removelast (text s)) = true) (fst acc)
  /\ no_sentence_end (text (snd acc)) = true.
Proof.
  intros Hs Hc. unfold Sentence.scan. fold (settle cur (charType [u])).
  destruct (bool_decide (charType [u] <> neutral)
            && bool_decide (charType [u] <> type (settle cur (charType [u]))))
    eqn:Ch.
  - apply andb_true_iff in Ch as [Ch _]. apply bool_decide_eq_true in Ch.
    apply not_neutral_not_sentence_end in Ch. simpl. split.
    + unfold push_if. case_match; [|exact Hs].
      apply Forall_app. split; [exact Hs|]. constructor; [|constructor].
      rewrite SentenceFacts.settle_text. now apply forallb_removelast.
    + unfold no_sentence_end. simpl. now rewrite Ch.
  - unfold test. simpl existsb. rewrite orb_false_r.
    destruct (sentenceEndRegex u) eqn:E; simpl; split; auto.
    + apply Forall_app. split; [exact Hs|]. constructor; [|constructor].
      simpl. rewrite removelast_last, SentenceFacts.settle_text. exact Hc.
    + rewrite SentenceFacts.settle_text. unfold no_sentence_end in *.
      rewrite forallb_app, Hc. simpl. now rewrite E.
Qed.

Lemma sentence_fold_terminators s : forall segments cur,
  Forall (fun s => no_sentence_end (removelast (text s)) = true) segments ->
  no_sentence_end (text cur) = true ->
  let acc := fold_left Sentence.scan (Sentence.units s) (segments, cur) in
  Forall (fun s => no_sentence_end (removelast (text s)) = true) (fst acc)
  /\ no_sentence_end (text (snd acc)) = true.
Proof.
  induction s as [|u s IH]; intros segments cur Hs Hc; [now split|].
  unfold Sentence.units. cbn [fold_left List.map].
  destruct (sentence_scan_terminators segments cur u Hs Hc) as [G1 G2].
  destruct (Sentence.scan (segments, cur) [u]) as [s1 c1]. now apply IH.
Qed.

(** X4. A segment of the sentence-splitting segmenter holds at most one
    sentence terminator, and only as its last code unit. *)
Theorem sentence_end_only_last (input : jsstring) :
  Forall (fun seg => no_sentence_end (removelast (text seg)) = true)
    (Sentence.parseText input).
Proof.
  unfold Sentence.parseText, Sentence.raw_segments.
  destruct (sentence_fold_terminators input [] fresh (List.Forall_nil _) eq_refl)
    as [G1 G2].
  destruct (fold_left Sentence.scan (Sentence.units input) ([], fresh))
    as [segments cur].
  simpl in *. apply List.Forall_forall. intros seg Hin.
  apply filter_In in Hin as [Hin _]. unfold push_if in Hin.
  rewrite List.Forall_forall in G1.
  case_match; [|now apply G1].
  apply in_app_or in Hin as [Hin|[<-|[]]]; [now apply G1|].
  now apply forallb_removelast.
Qed.

(** *** The two segmenters on text without sentence terminators *)

(** Reading a surrogate pair as one character or as two makes no
    difference to the base loop. *)
Lemma base_scan_pair acc u v :
  Base.is_high_surrogate u = true -> Base.is_low_surrogate v = true ->
  Base.scan acc [u; v] = Base.scan (Base.scan acc [u]) [v].
Proof.
  intros Hu Hv. apply high_surrogate_range in Hu. apply low_surrogate_range in Hv.
  destruct acc as [segments [t ty]]. unfold Base.scan.
  rewrite (charType_pair u v Hu Hv), (charType_surrogate u Hu),
    (charType_surrogate v Hv).
  destruct ty; simpl; unfold append; simpl; rewrite <- ?app_assoc; reflexivity.
Qed.

Lemma base_fold_units s : forall acc,
  fold_left Base.scan (Base.string_iterator s) acc
  = fold_left Base.scan (Sentence.units s) acc.
Proof.
  assert (H : forall n s acc, (length s <= n)%nat ->
              fold_left Base.scan (Base.string_iterator s) acc
              = fold_left Base.scan (Sentence.units s) acc).
  { clear s. induction n as [|n IH]; intros [|u [|v r]] acc L; simpl in L;
      try reflexivity; try lia.
    cbn [Base.string_iterator].
    destruct (Base.is_high_surrogate u && Base.is_low_surrogate v) eqn:E.
    - apply andb_true_iff in E as [Eu Ev].
      unfold Sentence.units. cbn [fold_left List.map].
      rewrite (base_scan_pair acc u v Eu Ev). apply IH. lia.
    - unfold Sentence.units. cbn [fold_left List.map].
      apply (IH (v :: r)). simpl. lia. }
  intros acc. apply (H (length s)). lia.
Qed.

Lemma filter_push segments cur :
  List.filter (fun s => speakable (text s))
    (push_if (0 <? length (text cur))%nat segments cur)
  = push_if (speakable (text cur))
      (List.filter (fun s => speakable (text s)) segments) cur.
Proof.
  unfold push_if. destruct (text cur) eqn:E; simpl.
  - reflexivity.
  - rewrite List.filter_app. simpl. rewrite E.
    destruct (speakable (n :: l)); [reflexivity | now rewrite app_nil_r].
Qed.

(** On a code unit that ends no sentence the two loops take the same
    step, the base one on the pushed segments that survive the final
    filter of the other. *)
Lemma scans_agree segments cur u :
  sentenceEndRegex u = false ->
  Base.scan (List.filter (fun s => speakable (text s)) segments, cur) [u]
  = (List.filter (fun s => speakable (text s))
       (fst (Sentence.scan (segments, cur) [u])),
     snd (Sentence.scan (segments, cur) [u])).
Proof.
  intros E. unfold Base.scan, Sentence.scan, test. simpl existsb.
  rewrite E. simpl orb.
  pose proof (filter_push segments cur) as Hpush.
  destruct cur as [t ty]. simpl in Hpush.
  destruct (charType [u]), ty; simpl; unfold append; simpl;
    try rewrite Hpush; reflexivity.
Qed.

Lemma folds_agree s : forall segments cur,
  no_sentence_end s = true ->
  fold_left Base.scan (Sentence.units s)
    (List.filter (fun s => speakable (text s)) segments, cur)
  = (List.filter (fun s => speakable (text s))
       (fst (fold_left Sentence.scan (Sentence.units s) (segments, cur))),
     snd (fold_left Sentence.scan (Sentence.units s) (segments, cur))).
Proof.
  induction s as [|u s IH]; intros segments cur H; [reflexivity|].
  unfold no_sentence_end in H. simpl in H.
  apply andb_true_iff in H as [Hu Hs]. apply negb_true_iff in Hu.
  unfold Sentence.units. cbn [fold_left List.map].
  rewrite (scans_agree segments cur u Hu).
  destruct (Sentence.scan (segments, cur) [u]) as [s1 c1].
  apply (IH s1 c1 Hs).
Qed.

(** X5. On an input without a full stop, exclamation mark, question
    mark or line feed the two segmenters return the same segments. *)
Theorem segmenters_agree_without_sentence_end (input : jsstring) :
  no_sentence_end input = true ->
  Sentence.parseText input = Base.parseText input.
Proof.
  intros H. unfold Base.parseText, Sentence.parseText, Sentence.raw_segments.
  rewrite base_fold_units.
  change (@nil Segment)
    with (List.filter (fun s => speakable (text s)) (@nil Segment)) at 2.
  rewrite (folds_agree input [] fresh H).
  destruct (fold_left Sentence.scan (Sentence.units input) ([], fresh))
    as [segments cur].
  simpl. apply filter_push.
Qed.

Lemma segmenters_agree_without_sentence_end_witness :
  no_sentence_end hello_korean_world = true
  /\ Sentence.parseText hello_korean_world = Base.parseText hello_korean_world.
Proof.
  split; [reflexivity|].
  apply (segmenters_agree_without_sentence_end hello_korean_world).
  reflexivity.
Defined.

(** ** Loading the voices *)

Lemma register_keeps n (l : list Voice) :
  forall (m : gmap jsstring Voice) v0,
  m !! n = Some v0 -> name v0 = n ->
  exists v',
    fold_left (fun m v => <[name v := v]> m) l m !! n = Some v'
    /\ name v' = n /\ (In v' l \/ v' = v0).
Proof.
  induction l as [|a l IH]; intros m v0 Hm Hn.
  - exists v0. simpl. auto.
  - simpl. destruct (decide (name a = n)) as [E|E].
    + assert (H0 : <[name a := a]> m !! n = Some a)
        by (rewrite <- E; apply lookup_insert_eq).
      destruct (IH _ a H0 E) as (v' & H1 & H2 & H3).
      exists v'. repeat split; auto. destruct H3 as [?| ->]; auto.
    + assert (H0 : <[name a := a]> m !! n = Some v0)
        by now rewrite lookup_insert_ne.
      destruct (IH _ v0 H0 Hn) as (v' & H1 & H2 & H3).
      exists v'. repeat split; auto. destruct H3 as [?| ->]; auto.
Qed.

Lemma register_in (l : list Voice) :
  forall (m : gmap jsstring Voice) v,
  In v l ->
  exists v',
    fold_left (fun m v => <[name v := v]> m) l m !! name v = Some v'
    /\ name v' = name v /\ In v' l.
Proof.
  induction l as [|a l IH]; intros m v Hin; [contradiction|].
  simpl. destruct Hin as [->|Hin].
  - assert (H0 : <[name v := v]> m !! name v = Some v) by apply lookup_insert_eq.
    destruct (register_keeps (name v) l _ v H0 eq_refl) as (v' & H1 & H2 & H3).
    exists v'. repeat split; auto. destruct H3 as [?| ->]; auto.
  - destruct (IH (<[name a := a]> m) v Hin) as (v' & H1 & H2 & H3).
    exists v'. auto.
Qed.

Lemma register_only (l : list Voice) :
  forall (m : gmap jsstring Voice) n v,
  fold_left (fun m v => <[name v := v]> m) l m !! n = Some v ->
  (In v l /\ name v = n) \/ m !! n = Some v.
Proof.
  induction l as [|a l IH]; intros m n v H; [now right|].
  simpl in H. apply IH in H as [[H1 H2]|H].
  - left. split; [now right | exact H2].
  - destruct (decide (name a = n)) as [E|E].
    + rewrite E, lookup_insert_eq in H. injection H as <-. left. split; [now left | exact E].
    + rewrite lookup_insert_ne in H by exact E. now right.
Qed.

Lemma loadVoices_registry (preferredKo : Voice -> bool)
  (voices : list Voice) (st : State) :
  let st' := fst (loadVoices_with preferredKo voices st) in
  (forall v, In v voices ->
     exists v', voiceMap st' !! name v = Some v'
                /\ name v' = name v /\ In v' voices)
  /\ (forall n v, voiceMap st' !! n = Some v -> In v voices /\ name v = n).
Proof.
  simpl. unfold register_voices. split.
  - intros v Hin. now apply register_in.
  - intros n v H. apply register_only in H as [H|H]; [exact H|].
    rewrite lookup_empty in H. discriminate.
Qed.

(** X6. After [loadVoices] the registry holds exactly the voices the
    engine listed, under their names: each listed name is a key, whose
    entry is a listed voice of that name, and nothing of an earlier
    registry is left. *)
Theorem loadVoices_registers (preferredKo : Voice -> bool)
  (voices : list Voice) (st : State) :
  let st' := fst (loadVoices_with preferredKo voices st) in
  (forall v, In v voices ->
     exists v', voiceMap st' !! name v = Some v'
                /\ name v' = name v /\ In v' voices)
  /\ (forall n v, voiceMap st' !! n = Some v -> In v voices /\ name v = n).
Proof. apply loadVoices_registry. Qed.

Lemma filter_nonempty {A} (p : A -> bool) l :
  existsb p l = true -> List.filter p l <> [].
Proof.
  intros H E. apply existsb_exists in H as (x & Hin & Hp).
  assert (Hx : In x (List.filter p l)) by (apply filter_In; auto).
  rewrite E in Hx. contradiction.
Qed.

Lemma default_choice {A} (p q : A -> bool) (l : list A) :
  l <> [] ->
  exists x, or_else (find p l) (or_else (find q l) (head l)) = Some x /\ In x l.
Proof.
  intros Hne. destruct (find p l) eqn:Ep.
  - exists a. split; [reflexivity|]. now apply find_some in Ep.
  - destruct (find q l) eqn:Eq.
    + exists a. split; [reflexivity|]. now apply find_some in Eq.
    + destruct l as [|x l]; [contradiction|]. exists x. simpl. auto.
Qed.

Lemma default_choice2 {A} (p : A -> bool) (l : list A) :
  l <> [] -> exists x, or_else (find p l) (head l) = Some x /\ In x l.
Proof.
  intros Hne. destruct (find p l) eqn:Ep.
  - exists a. split; [reflexivity|]. now apply find_some in Ep.
  - destruct l as [|x l]; [contradiction|]. exists x. simpl. auto.
Qed.

Lemma loadVoices_en_selected preferredKo voices st :
  existsb (fun v => startsWith (lang v) (js "en")) voices = true ->
  exists v,
    In v voices
    /\ voiceSelectEn_value (inputs (fst (loadVoices_with preferredKo voices st)))
       = name v.
Proof.
  intros H. apply filter_nonempty in H.
  destruct (default_choice (fun v => includes (name v) (js "Samantha")) default _ H)
    as (v & Ev & Hin).
  exists v. apply filter_In in Hin as [Hin _]. split; [exact Hin|].
  simpl. now rewrite Ev.
Qed.

Lemma loadVoices_ko_selected preferredKo voices st :
  existsb (fun v => startsWith (lang v) (js "ko")) voices = true ->
  exists v,
    In v voices
    /\ voiceSelectKo_value (inputs (fst (loadVoices_with preferredKo voices st)))
       = name v.
Proof.
  intros H. apply filter_nonempty in H.
  destruct (default_choice2 preferredKo _ H) as (v & Ev & Hin).
  exists v. apply filter_In in Hin as [Hin _]. split; [exact Hin|].
  simpl. now rewrite Ev.
Qed.

(** X7. Once the voices are loaded, a language with a listed voice
    never goes without one: [speak] assigns a voice to a Korean segment
    if the engine lists a voice whose language code starts with ko, and
    to any other segment if it lists one whose code starts with en. *)
Theorem loaded_voices_are_assigned (preferredKo : Voice -> bool)
  (voices : list Voice) (st : State) (seg : Segment) :
  existsb
    (fun v => startsWith (lang v)
                (if decide (type seg = ko) then js "ko" else js "en"))
    voices = true ->
  is_Some (assigned_voice (fst (loadVoices_with preferredKo voices st)) seg).
Proof.
  intros H.
  destruct (loadVoices_registry preferredKo voices st) as [Hreg _].
  unfold assigned_voice. case_decide.
  - destruct (loadVoices_ko_selected preferredKo voices st H) as (v & Hin & Ev).
    rewrite Ev. destruct (Hreg v Hin) as (v' & Hv & _). now exists v'.
  - destruct (loadVoices_en_selected preferredKo voices st H) as (v & Hin & Ev).
    rewrite Ev. destruct (Hreg v Hin) as (v' & Hv & _). now exists v'.
Qed.

Lemma loaded_voices_are_assigned_witness :
  let seg := {| text := annyeonghaseyo; type := ko |} in
  existsb
    (fun v => startsWith (lang v)
                (if decide (type seg = ko) then js "ko" else js "en"))
    [daniel; yuna] = true
  /\ is_Some
       (assigned_voice
          (fst (loadVoices_main [daniel; yuna] (page_at_rest annyeonghaseyo)))
          seg).
Proof.
  split; [reflexivity|].
  apply (loaded_voices_are_assigned _ [daniel; yuna]
           (page_at_rest annyeonghaseyo)
           {| text := annyeonghaseyo; type := ko |}).
  reflexivity.
Defined.

(** X8. Every option of the two menus that is not disabled, whichever
    the user chooses, has as its value the name of a registered
    voice. *)
Theorem menu_options_registered (preferredKo : Voice -> bool)
  (voices : list Voice) (st : State) :
  selectable_registered (fst (loadVoices_with preferredKo voices st))
    (snd (loadVoices_with preferredKo voices st)).
Proof.
  destruct (loadVoices_registry preferredKo voices st) as [Hreg _].
  intros o Hin Hd. simpl in Hin.
  assert (Hv : exists v, In v voices /\ o = createOption v).
  { apply in_app_or in Hin as [Hin|Hin].
    - apply in_map_iff in Hin as (v & <- & Hv).
      apply filter_In in Hv as [Hv _]. eauto.
    - destruct (length _ =? 0)%nat.
      + apply in_app_or in Hin as [Hin|[<-|[]]]; [|discriminate].
        apply in_map_iff in Hin as (v & <- & Hv).
        apply filter_In in Hv as [Hv _]. eauto.
      + apply in_map_iff in Hin as (v & <- & Hv).
        apply filter_In in Hv as [Hv _]. eauto. }
  destruct Hv as (v & Hv & ->). simpl value.
  destruct (Hreg v Hv) as (v' & H1 & H2 & _). eauto.
Qed.

(** X9. An English voice whose name contains Samantha is preferred to
    any other: if one is listed, the English selection contains
    Samantha. *)
Theorem samantha_is_preferred (preferredKo : Voice -> bool)
  (voices : list Voice) (st : State) :
  existsb (fun v => startsWith (lang v) (js "en")
                    && includes (name v) (js "Samantha")) voices = true ->
  includes
    (voiceSelectEn_value (inputs (fst (loadVoices_with preferredKo voices st))))
    (js "Samantha") = true.
Proof.
  intros H. apply existsb_exists in H as (v & Hin & Hv).
  apply andb_true_iff in Hv as [Hen Hs]. simpl.
  destruct (find (fun v => includes (name v) (js "Samantha"))
              (List.filter (fun v => startsWith (lang v) (js "en")) voices))
    eqn:E.
  - simpl. now apply find_some in E as [_ E].
  - exfalso. eapply find_none in E; [|apply filter_In; split; eassumption].
    simpl in E. congruence.
Qed.

Lemma samantha_is_preferred_witness :
  let voices := [daniel; yuna; samantha] in
  existsb (fun v => startsWith (lang v) (js "en")
                    && includes (name v) (js "Samantha")) voices = true
  /\ includes
       (voiceSelectEn_value
          (inputs (fst (loadVoices_main voices (page_at_rest [])))))
       (js "Samantha") = true.
Proof.
  split; [reflexivity|].
  apply (samantha_is_preferred _ [daniel; yuna; samantha] (page_at_rest [])).
  reflexivity.
Defined.

(** ** More on the playback controller *)

(** X10. Pausing and resuming with the pause button, whose listener is
    the same in the three scripts, is a round trip: from a state that
    is speaking, not paused, with the indicator shown and the button
    labelled Pause, two clicks give back the very same state, queue
    included; after the first the engine is paused and the queue
    untouched. *)
Theorem pause_resume_round_trip (st : State) :
  speaking (synth st) = true ->
  paused (synth st) = false ->
  statusIndicator_hidden (controls st) = false ->
  pauseBtn_innerHTML st = pause_markup ->
  Base.pauseBtn_click (Base.pauseBtn_click st) = st
  /\ HighlightListeners.pauseBtn_click (HighlightListeners.pauseBtn_click st)
     = st
  /\ status (Base.pauseBtn_click st)
     = (if playBtn_disabled (controls st) then Paused else Idle)
  /\ queue (synth (Base.pauseBtn_click st)) = queue (synth st).
Proof.
  destruct st as [i [h pd sd pl] pm sm d vm cs tr [q p]]. simpl.
  intros Hs -> -> ->. unfold speaking in Hs. simpl in Hs.
  destruct q as [|u q]; [discriminate|].
  unfold Base.pauseBtn_click, HighlightListeners.pauseBtn_click, status.
  simpl. auto.
Qed.

Lemma pause_resume_round_trip_witness :
  let st := Base.speak (page_at_rest hello_korean_world) in
  (speaking (synth st) = true /\ paused (synth st) = false
   /\ statusIndicator_hidden (controls st) = false
   /\ pauseBtn_innerHTML st = pause_markup)
  /\ Base.pauseBtn_click (Base.pauseBtn_click st) = st
  /\ HighlightListeners.pauseBtn_click (HighlightListeners.pauseBtn_click st)
     = st
  /\ status (Base.pauseBtn_click st)
     = (if playBtn_disabled (controls st) then Paused else Idle)
  /\ queue (synth (Base.pauseBtn_click st)) = queue (synth st).
Proof.
  split; [repeat split|].
  apply (pause_resume_round_trip
           (Base.speak (page_at_rest hello_korean_world)));
    reflexivity.
Defined.

Lemma click_stuck st c :
  playBtn_disabled (controls st) = true ->
  speaking (synth st) = false -> paused (synth st) = false ->
  click st c = st.
Proof.
  intros Hp Hs Hpa. destruct c; simpl.
  - now rewrite Hp.
  - unfold Base.pauseBtn_click. rewrite Hs, Hpa. simpl. now case_match.
  - unfold Base.stopBtn_click. rewrite Hs. now case_match.
Qed.

(** X11. In src/main.js a page whose play button is disabled while the
    engine is neither speaking nor paused stays as it is under any
    clicks on play, pause and stop. *)
Theorem silent_speaking_page_ignores_clicks (st : State) (clicks : list Click) :
  playBtn_disabled (controls st) = true ->
  speaking (synth st) = false ->
  paused (synth st) = false ->
  fold_left click clicks st = st.
Proof.
  intros Hp Hs Hpa. induction clicks as [|c clicks IH]; [reflexivity|].
  simpl. now rewrite (click_stuck st c Hp Hs Hpa).
Qed.

Lemma silent_speaking_page_ignores_clicks_witness :
  let st := Base.speak (page_at_rest (js " ")) in
  (playBtn_disabled (controls st) = true /\ speaking (synth st) = false
   /\ paused (synth st) = false)
  /\ fold_left click [click_stop; click_pause; click_play; click_stop] st = st.
Proof.
  split; [repeat split|].
  apply (silent_speaking_page_ignores_clicks
           (Base.speak (page_at_rest (js " ")))); reflexivity.
Defined.



Lemma highlight_stop_settled st :
  speaking (synth (Highlight.stopBtn_click st)) = false.
Proof.
  unfold Highlight.stopBtn_click, Highlight.setSpeakingState.
  destruct (speaking (synth st)) eqn:E; simpl; auto.
Qed.

Lemma highlight_stop_idempotent st :
  Highlight.stopBtn_click (Highlight.stopBtn_click st)
  = Highlight.stopBtn_click st.
Proof.
  pose proof (highlight_stop_settled st) as E.
  unfold Highlight.stopBtn_click at 1. now rewrite E.
Qed.

Lemma translate_stop_settled st :
  isTranslating (TranslateListeners.stopBtn_click st) = false
  /\ speaking (synth (TranslateListeners.stopBtn_click st)) = false.
Proof.
  unfold TranslateListeners.stopBtn_click, Translate.setSpeakingState.
  destruct (isTranslating st) eqn:T; simpl.
  - destruct (speaking (synth st)) eqn:E; simpl; auto.
  - destruct (speaking (synth st)) eqn:E; simpl; auto.
Qed.

Lemma translate_stop_idempotent st :
  TranslateListeners.stopBtn_click (TranslateListeners.stopBtn_click st)
  = TranslateListeners.stopBtn_click st.
Proof.
  destruct (translate_stop_settled st) as [T E].
  unfold TranslateListeners.stopBtn_click at 1. now rewrite T, E.
Qed.

(** X12. The stop listener of each script is idempotent: a second click
    changes nothing. *)
Theorem stop_is_idempotent (st : State) :
  Base.stopBtn_click (Base.stopBtn_click st) = Base.stopBtn_click st
  /\ Highlight.stopBtn_click (Highlight.stopBtn_click st)
     = Highlight.stopBtn_click st
  /\ TranslateListeners.stopBtn_click (TranslateListeners.stopBtn_click st)
     = TranslateListeners.stopBtn_click st.
Proof.
  split; [apply base_stop_idempotent|].
  split; [apply highlight_stop_idempotent | apply translate_stop_idempotent].
Qed.





Lemma imap_nil_iff {A B} (f : nat -> A -> B) (l : list A) :
  imap f l = [] <-> l = [].
Proof. destruct l; simpl; split; intros; congruence. Qed.

(** X15. Started with a silent engine, [speak] of src/main.js queues
    nothing exactly when the text is white space only (the empty text
    included). *)
Theorem speak_queues_nothing_iff_blank (st : State) :
  speaking (synth st) = false ->
  (queue (synth (Base.speak st)) = []
   <-> forallb is_space (textInput_value (inputs st)) = true).
Proof.
  intros Hs. destruct (decide (textInput_value (inputs st) = [])) as [E|E].
  - rewrite (base_speak_empty_text st E), E, (speaking_false_queue _ Hs).
    simpl. tauto.
  - rewrite (base_speak_submits st Hs E). simpl.
    rewrite imap_nil_iff. apply base_no_segment_iff_blank.
Qed.

Lemma speak_queues_nothing_iff_blank_witness :
  let st := page_at_rest (js "  ") in
  speaking (synth st) = false
  /\ (queue (synth (Base.speak st)) = []
      <-> forallb is_space (textInput_value (inputs st)) = true).
Proof.
  split; [reflexivity|].
  apply (speak_queues_nothing_iff_blank (page_at_rest (js "  "))).
  reflexivity.
Defined.

(** *** Highlighting *)

Lemma mark_texts (spans : list (jsstring * bool)) : forall i b,
  List.map fst (alter (fun s : jsstring * bool => (fst s, b)) i spans)
  = List.map fst spans.
Proof.
  induction spans as [|x l IH]; intros [|i] b; simpl; try reflexivity.
  f_equal. apply IH.
Qed.

Lemma clear_texts (spans : list (jsstring * bool)) :
  List.map fst (List.map (fun s : jsstring * bool => (fst s, false)) spans)
  = List.map fst spans.
Proof. induction spans as [|x l IH]; simpl; [reflexivity | now rewrite IH]. Qed.

Lemma mark_one (spans : list (jsstring * bool)) : forall i j b,
  List.map snd
    (alter (fun s : jsstring * bool => (fst s, true)) i
       (List.map (fun s : jsstring * bool => (fst s, false)) spans)) !! j
  = Some b ->
  b = bool_decide (j = i).
Proof.
  induction spans as [|x l IH]; intros i j b H.
  - destruct i, j; discriminate.
  - destruct i as [|i], j as [|j]; simpl in H.
    + now injection H as <-.
    + clear IH. revert j H. induction l as [|y l IHl]; intros [|j] H;
        simpl in H; try discriminate.
      * now injection H as <-.
      * rewrite (IHl j H). reflexivity.
    + now injection H as <-.
    + rewrite (IH i j b H). apply bool_decide_ext. lia.
Qed.

Lemma mark_hit (spans : list (jsstring * bool)) : forall i,
  List.map snd
    (alter (fun s : jsstring * bool => (fst s, true)) i
       (List.map (fun s : jsstring * bool => (fst s, false)) spans)) !! i
  = (fun _ => true) <$> (List.map fst spans !! i).
Proof.
  induction spans as [|x l IH]; intros [|i]; simpl; try reflexivity.
  apply IH.
Qed.

Lemma unmark_all (spans : list (jsstring * bool)) : forall i,
  Forall (eq false)
    (List.map snd
       (alter (fun s : jsstring * bool => (fst s, false)) i
          (alter (fun s : jsstring * bool => (fst s, true)) i
             (List.map (fun s : jsstring * bool => (fst s, false)) spans)))).
Proof.
  induction spans as [|x l IH]; intros [|i]; simpl.
  - constructor.
  - constructor.
  - constructor; [reflexivity|]. clear IH.
    induction l; simpl; constructor; auto.
  - constructor; [reflexivity | apply IH].
Qed.

Lemma highlight_marks_one_span_aux index st :
  displayed (highlightSegment index st) = displayed st
  /\ (forall j b,
        highlighted (highlightSegment index st) !! j = Some b ->
        b = bool_decide (j = index))
  /\ highlighted (highlightSegment index st) !! index
     = (fun _ => true) <$> (displayed st !! index).
Proof.
  unfold displayed, highlighted, highlightSegment. simpl.
  split; [now rewrite mark_texts, clear_texts|].
  split; [intros j b; apply mark_one | apply mark_hit].
Qed.

(** X16. [highlightSegment] leaves the texts of the spans alone, puts
    the highlight on the span of its index if there is such a span, and
    on no other; [unhighlightSegment] on the same index then leaves no
    span highlighted. *)
Theorem highlight_marks_one_span (index : nat) (st : State) :
  displayed (highlightSegment index st) = displayed st
  /\ (forall j b,
        highlighted (highlightSegment index st) !! j = Some b ->
        b = bool_decide (j = index))
  /\ highlighted (highlightSegment index st) !! index
     = (fun _ => true) <$> (displayed st !! index)
  /\ Forall (eq false)
       (highlighted (unhighlightSegment index (highlightSegment index st))).
Proof.
  destruct (highlight_marks_one_span_aux index st) as (H1 & H2 & H3).
  repeat split; auto.
  unfold highlighted, highlightSegment, unhighlightSegment. simpl.
  apply unmark_all.
Qed.

Lemma highlight_speak_submits st :
  speaking (synth st) = false -> textInput_value (inputs st) <> [] ->
  let segments := Sentence.parseText (textInput_value (inputs st)) in
  let ready :=
    Highlight.setSpeakingState true
      (prepareDisplayArea segments (with_currentSegments segments st)) in
  Highlight.speak st
  = with_synth
      {| queue := imap (fun i seg => Highlight.utterance ready seg i) segments;
         paused := paused (synth st) |} ready.
Proof.
  intros Hs Hne. unfold Highlight.speak. rewrite Hs.
  case_decide; [|contradiction]. unfold forEach.
  rewrite forEach_submits by reflexivity. simpl.
  now rewrite (speaking_false_queue _ Hs).
Qed.

Lemma imap_lookup_utterance (mk : nat -> Segment -> Utterance) l i u :
  imap mk l !! i = Some u -> exists seg, l !! i = Some seg /\ u = mk i seg.
Proof. rewrite list_lookup_imap. intros H. now apply fmap_Some in H. Qed.

(** X17. After [speak] of the second script of part_000 the display
    area shows one span per queued utterance, with its text, in order;
    and the start callback of the utterance at position i puts the
    highlight on span i, which shows the text being spoken, and on no
    other. *)
Theorem highlight_follows_speech (st : State) (i : nat) (u : Utterance) :
  speaking (synth st) = false ->
  textInput_value (inputs st) <> [] ->
  queue (synth (Highlight.speak st)) !! i = Some u ->
  displayed (Highlight.speak st) = List.map utext (queue (synth (Highlight.speak st)))
  /\ displayed (Highlight.deliver start_event u (Highlight.speak st)) !! i
     = Some (utext u)
  /\ highlighted (Highlight.deliver start_event u (Highlight.speak st)) !! i
     = Some true
  /\ (forall j b,
        highlighted (Highlight.deliver start_event u (Highlight.speak st)) !! j
        = Some b ->
        b = bool_decide (j = i)).
Proof.
  intros Hs Hne Hu. rewrite (highlight_speak_submits st Hs Hne) in *.
  cbn [synth with_synth queue] in Hu.
  apply imap_lookup_utterance in Hu as (seg & Hseg & ->).
  unfold Highlight.deliver. cbn [handler_of Highlight.utterance onstart run].
  set (segments := Sentence.parseText (textInput_value (inputs st))) in *.
  assert (Hd : displayed
                 (with_synth
                    {| queue :=
                         imap (fun i seg =>
                                 Highlight.utterance
                                   (Highlight.setSpeakingState true
                                      (prepareDisplayArea segments
                                         (with_currentSegments segments st)))
                                   seg i) segments;
                       paused := paused (synth st) |}
                    (Highlight.setSpeakingState true
                       (prepareDisplayArea segments
                          (with_currentSegments segments st))))
               = texts segments).
  { unfold displayed. simpl. unfold texts. rewrite map_map. reflexivity. }
  destruct (highlight_marks_one_span_aux i
              (with_synth
                 {| queue :=
                      imap (fun i seg =>
                              Highlight.utterance
                                (Highlight.setSpeakingState true
                                   (prepareDisplayArea segments
                                      (with_currentSegments segments st)))
                                seg i) segments;
                    paused := paused (synth st) |}
                 (Highlight.setSpeakingState true
                    (prepareDisplayArea segments
                       (with_currentSegments segments st)))))
    as (Ht & Hone & Hhit).
  split.
  - rewrite Hd. cbn [synth with_synth queue]. symmetry. now apply imap_utext.
  - split.
    + rewrite Ht, Hd. unfold texts. simpl.
      clear -Hseg. revert i Hseg.
      induction segments as [|x l IH]; intros [|i] H; simpl in *;
        try discriminate.
      * now injection H as ->.
      * now apply IH.
    + split; [|exact Hone]. rewrite Hhit, Hd. unfold texts.
      clear -Hseg. revert i Hseg.
      induction segments as [|x l IH]; intros [|i] H; simpl in *;
        try discriminate; [reflexivity | now apply IH].
Qed.





(** *** Translation *)

(** [Translate.speak] is the call up to its [await] followed, when it
    awaits, by its resumption. *)
Lemma translate_speak_split translation st :
  Translate.speak translation st
  = match TranslateListeners.speak_start st with
    | (st', Some text0) => TranslateListeners.speak_resume text0 translation st'
    | (st', None) => st'
    end.
Proof.
  unfold Translate.speak, TranslateListeners.speak_start,
    TranslateListeners.speak_resume, TranslateListeners.speak_tail.
  destruct (speaking (synth st)); [reflexivity|].
  case_decide; [|reflexivity]. simpl.
  destruct (translateToggle_checked (inputs st)); reflexivity.
Qed.

(** A call resumed while [isTranslating] is false returns at once: the
    state is left as it is. *)
Lemma resume_when_clear text0 translation s :
  isTranslating s = false ->
  TranslateListeners.speak_resume text0 translation s = s.
Proof.
  destruct s as [i c pm sm d vm cs tr sy]. simpl. intros ->. reflexivity.
Qed.

(** A call resumed while [isTranslating] is true, the indicator shown
    and the queue empty, queues its text with the translation. *)
Lemma resume_when_set text0 translation s :
  isTranslating s = true ->
  statusIndicator_hidden (controls s) = false ->
  queue (synth s) = [] ->
  List.map utext
    (queue (synth (TranslateListeners.speak_resume text0 translation s)))
  = texts (Sentence.parseText (text0 ++ [10; 10] ++ translation)).
Proof.
  intros Ht Hh Hq. unfold TranslateListeners.speak_resume. rewrite Ht.
  cbn [negb]. unfold TranslateListeners.speak_tail. simpl. rewrite Hh. simpl.
  unfold forEach. rewrite forEach_submits by reflexivity. simpl.
  rewrite Hq. simpl. now apply imap_utext.
Qed.

(** X19. A stop click while [speak] awaits the translation clears
    [isTranslating] and returns the page to rest with play enabled, and
    a call resumed while the flag is clear changes nothing: if the
    translation arrives next, nothing is segmented, displayed or queued.
    The flag is the only record of the stop: after a further click on
    play, which sets it again, the stopped call, when its translation
    arrives, segments and queues its text with that translation. *)
Theorem stop_cancels_translation_until_restart (st : State)
  (translation : jsstring) :
  speaking (synth st) = false ->
  paused (synth st) = false ->
  textInput_value (inputs st) <> [] ->
  translateToggle_checked (inputs st) = true ->
  exists awaiting,
    TranslateListeners.speak_start st
    = (awaiting, Some (textInput_value (inputs st)))
    /\ isTranslating awaiting = true
    /\ let stopped := TranslateListeners.stopBtn_click awaiting in
       let restarted := fst (TranslateListeners.playBtn_click stopped) in
       (isTranslating stopped = false
        /\ status stopped = Idle
        /\ playBtn_disabled (controls stopped) = false
        /\ queue (synth stopped) = [])
       /\ TranslateListeners.speak_resume (textInput_value (inputs st))
            translation stopped = stopped
       /\ (forall s,
              isTranslating s = false ->
              TranslateListeners.speak_resume (textInput_value (inputs st))
                translation s = s)
       /\ isTranslating restarted = true
       /\ List.map utext
            (queue (synth (TranslateListeners.speak_resume
                             (textInput_value (inputs st)) translation
                             restarted)))
          = texts (Sentence.parseText
                     (textInput_value (inputs st) ++ [10; 10] ++ translation)).
Proof.
  intros Hs Hp Hne Ht. unfold TranslateListeners.speak_start. rewrite Hs.
  case_decide; [|contradiction]. cbn [Translate.setSpeakingState].
  change (translateToggle_checked (inputs (with_controls _ st)))
    with (translateToggle_checked (inputs st)).
  rewrite Ht. eexists. split; [reflexivity|]. split; [reflexivity|].
  cbv zeta.
  set (awaiting := with_statusIndicator_innerHTML translating_markup _).
  set (stopped := TranslateListeners.stopBtn_click awaiting).
  assert (Hst : isTranslating stopped = false
                /\ status stopped = Idle
                /\ playBtn_disabled (controls stopped) = false
                /\ queue (synth stopped) = []).
  { subst stopped awaiting. unfold TranslateListeners.stopBtn_click. simpl.
    rewrite Hs. simpl. rewrite (speaking_false_queue _ Hs). auto. }
  destruct Hst as (H1 & H2 & H3 & H4).
  split; [auto|].
  split; [now apply resume_when_clear|].
  split; [intros s; apply resume_when_clear|].
  assert (Hin : inputs stopped = inputs st /\ paused (synth stopped) = false).
  { subst stopped awaiting. unfold TranslateListeners.stopBtn_click. simpl.
    rewrite Hs. simpl. auto. }
  destruct Hin as [Hi Hpa].
  unfold TranslateListeners.playBtn_click. rewrite Hpa.
  unfold TranslateListeners.speak_start.
  unfold speaking. rewrite H4. rewrite Hi.
  case_decide; [|contradiction]. cbn [Translate.setSpeakingState].
  change (translateToggle_checked (inputs (with_controls _ stopped)))
    with (translateToggle_checked (inputs stopped)).
  rewrite Hi, Ht. cbn [fst].
  split; [reflexivity|].
  apply resume_when_set; [reflexivity | reflexivity | exact H4].
Qed.

Lemma stop_cancels_translation_until_restart_witness :
  let st := page_translating annyeonghaseyo in
  (speaking (synth st) = false
   /\ paused (synth st) = false
   /\ textInput_value (inputs st) <> []
   /\ translateToggle_checked (inputs st) = true)
  /\ exists awaiting,
       TranslateListeners.speak_start st
       = (awaiting, Some (textInput_value (inputs st)))
       /\ isTranslating awaiting = true
       /\ let stopped := TranslateListeners.stopBtn_click awaiting in
          let restarted := fst (TranslateListeners.playBtn_click stopped) in
          (isTranslating stopped = false
           /\ status stopped = Idle
           /\ playBtn_disabled (controls stopped) = false
           /\ queue (synth stopped) = [])
          /\ TranslateListeners.speak_resume (textInput_value (inputs st))
               (js "Hello") stopped = stopped
          /\ (forall s,
                 isTranslating s = false ->
                 TranslateListeners.speak_resume (textInput_value (inputs st))
                   (js "Hello") s = s)
          /\ isTranslating restarted = true
          /\ List.map utext
               (queue (synth (TranslateListeners.speak_resume
                                (textInput_value (inputs st)) (js "Hello")
                                restarted)))
             = texts (Sentence.parseText
                        (textInput_value (inputs st) ++ [10; 10] ++ js "Hello")).
Proof.
  split;
    [split; [reflexivity | split; [reflexivity
                                  | split; [discriminate | reflexivity]]]|].
  apply (stop_cancels_translation_until_restart
           (page_translating annyeonghaseyo) (js "Hello"));
    [reflexivity | reflexivity | discriminate | reflexivity].
Defined.

(** X20. With the toggle checked the translation is segmented on its
    own and spoken after the original: the texts queued are those of
    the segments of the input followed by a line feed, then those of
    the segments of the translation. *)
Theorem translation_spoken_after_original (st : State) (translation : jsstring) :
  speaking (synth st) = false ->
  textInput_value (inputs st) <> [] ->
  translateToggle_checked (inputs st) = true ->
  List.map utext (queue (synth (Translate.speak translation st)))
  = texts (Sentence.parseText (textInput_value (inputs st) ++ [10]))
    ++ texts (Sentence.parseText translation).
Proof.
  intros Hs Hne Ht.
  destruct (translate_speak_faithful translation st Hs Hne) as [H _].
  rewrite H. unfold spoken_text. rewrite Ht.
  change ([10; 10] ++ translation) with (10 :: 10 :: translation).
  rewrite (SentenceFacts.parseText_split _ 10 (10 :: translation) eq_refl).
  pose proof (SentenceFacts.parseText_split [] 10 translation eq_refl) as E.
  simpl app in E at 1. rewrite E.
  unfold texts. rewrite !map_app. reflexivity.
Qed.

Lemma translation_spoken_after_original_witness :
  let st := page_translating annyeonghaseyo in
  (speaking (synth st) = false
   /\ textInput_value (inputs st) <> []
   /\ translateToggle_checked (inputs st) = true)
  /\ List.map utext (queue (synth (Translate.speak (js "Hello") st)))
     = texts (Sentence.parseText (textInput_value (inputs st) ++ [10]))
       ++ texts (Sentence.parseText (js "Hello")).
Proof.
  split; [split; [reflexivity | split; [discriminate | reflexivity]]|].
  apply (translation_spoken_after_original
           (page_translating annyeonghaseyo) (js "Hello"));
    [reflexivity | discriminate | reflexivity].
Defined.

Lemma highlight_follows_speech_witness :
  let st := page_at_rest [97; han] in
  exists u,
    (speaking (synth st) = false
     /\ textInput_value (inputs st) <> []
     /\ queue (synth (Highlight.speak st)) !! 1%nat = Some u)
    /\ displayed (Highlight.speak st)
       = List.map utext (queue (synth (Highlight.speak st)))
    /\ displayed (Highlight.deliver start_event u (Highlight.speak st)) !! 1%nat
       = Some (utext u)
    /\ highlighted (Highlight.deliver start_event u (Highlight.speak st)) !! 1%nat
       = Some true
    /\ (forall j b,
          highlighted (Highlight.deliver start_event u (Highlight.speak st)) !! j
          = Some b ->
          b = bool_decide (j = 1%nat)).
Proof.
  intros st. eexists. split.
  - split; [reflexivity|]. split; [discriminate | reflexivity].
  - apply (highlight_follows_speech (page_at_rest [97; han]) 1 _);
      [reflexivity | discriminate | reflexivity].
Defined.


